(** * coinkit: the federated consensus core (network/scp.go) and the
      operation codec (util/operation.go)

    A shallow embedding of the nomination state machine, the three-phase
    ballot state machine, the slot driver and the operation registry,
    together with the properties the specification states about them.

    Conventions.
    - Go's [int] is modelled as [Z]; the two increments of the source
      ([s.b.n++] and the [i++] of the Externalize loop) wrap at 64 bits.
    - A nil pointer is [None]; a map is a [gmap] keyed by the node's name.
    - A Go [for ... range] over a map visits the entries in an unspecified
      order.  The lists built that way are only passed to MeetsQuorum and
      BlockedBy, which look at their members alone
      ([MeetsQuorum_same_members], [BlockedBy_same_members]), so the model
      visits the entries in [map_to_list] order.
    - A panic is an explicit [Panic] outcome. *)

From Stdlib Require Import ZArith Lia DecimalString DecimalZ.
From stdpp Require Import base option list gmap strings.

Local Open Scope Z_scope.

(** ** Go integers *)

Definition int_min : Z := - 2 ^ 63.
Definition int_max : Z := 2 ^ 63 - 1.

Definition int_wrap (z : Z) : Z := (z + 2 ^ 63) mod 2 ^ 64 - 2 ^ 63.

(** [n++] on a Go [int]. *)
Definition int_succ (n : Z) : Z := int_wrap (n + 1).

(** ** Outcomes of calls that may panic *)

Inductive outcome (A : Type) : Type :=
| Returns (a : A)
| Panic (msg : string).
Arguments Returns {A} a.
Arguments Panic {A} msg.

(** ** Quorum slices *)

Record QuorumSlice : Type := mkQuorumSlice {
  Members : list string;
  Threshold : Z
}.

#[export] Instance QuorumSlice_eq_dec : EqDecision QuorumSlice.
Proof. solve_decision. Defined.

Definition has_node (S : list string) (u : string) : bool :=
  bool_decide (u ∈ S).

(** The number of members of the slice that are in [S]. *)
Definition members_in (qs : QuorumSlice) (S : list string) : Z :=
  Z.of_nat (length (List.filter (has_node S) (Members qs))).

(** Modelled from the spec: the method SatisfiedBy of QuorumSlice is not
    among the sources.  "A set S of node ids satisfies the slice iff
    |S ∩ members| ≥ threshold." *)
Definition SatisfiedBy (qs : QuorumSlice) (S : list string) : bool :=
  bool_decide (Threshold qs ≤ members_in qs S).

(** Modelled from the spec: the method BlockedBy of QuorumSlice is not
    among the sources.  "BlockedBy(S): returns
    |members| − |members ∩ S| < threshold." *)
Definition BlockedBy (qs : QuorumSlice) (S : list string) : bool :=
  bool_decide (Z.of_nat (length (Members qs)) - members_in qs S < Threshold qs).

(** ** The quorum predicate *)

(** The Go interface the quorum check is written against: something that
    knows its own name and can look up the slice of a node. *)
Class QuorumFinder (A : Type) : Type := {
  PublicKey : A → string;
  QuorumSliceOf : A → string → option QuorumSlice
}.

Section MeetsQuorum.
Context {A : Type} `{QuorumFinder A}.
Variable f : A.

Definition slice_defined (u : string) : bool :=
  bool_decide (is_Some (QuorumSliceOf f u)).

Definition slice_satisfied (Q : list string) (u : string) : bool :=
  match QuorumSliceOf f u with
  | Some qs => SatisfiedBy qs Q
  | None => false
  end.

(** One round of step 2: drop the nodes whose slice [Q] does not satisfy. *)
Definition prune (Q : list string) : list string :=
  List.filter (slice_satisfied Q) Q.

Fixpoint prune_iter (k : nat) (Q : list string) : list string :=
  match k with
  | O => Q
  | S k' => prune_iter k' (prune Q)
  end.

(** Modelled from the spec: the function MeetsQuorum is not among the
    sources.  "1. Q ← S ∪ {v} restricted to nodes for which slice is
    defined.  2. Repeat: remove any u ∈ Q for which Q does not satisfy
    slice(u).  3. Return v ∈ Q."  A round that removes nothing ends the
    repetition, and every other round shortens [Q], so [length Q] rounds
    reach the fixed point. *)
Definition MeetsQuorum (nodes : list string) : bool :=
  let Q := List.filter slice_defined (PublicKey f :: nodes) in
  has_node (prune_iter (length Q) Q) (PublicKey f).
End MeetsQuorum.

(** ** Slot values *)

Section Consensus.
Context {SlotValue : Type} `{EqDecision SlotValue}.

(** The combine operator on candidate values, MakeSlotValue and the
    methods of the ballot messages are declared outside the sources at
    hand; they are parameters of the development. *)
Variable CombineSlice : list SlotValue → SlotValue.
Variable MakeSlotValue : string → SlotValue.

(** The zero value of the Go type SlotValue, which the fields of a message
    hold when they are not set. *)
Variable zeroSlotValue : SlotValue.

(** Modelled from the spec: the function Equal on SlotValue is not among
    the sources.  SlotValue "admits a total equality". *)
Definition Equal (a b : SlotValue) : bool := bool_decide (a = b).

(** Modelled from the spec: the function HasSlotValue is not among the
    sources; it tells whether the list holds a value equal to [v]. *)
Definition HasSlotValue (l : list SlotValue) (v : SlotValue) : bool :=
  existsb (Equal v) l.

(** ** Nomination *)

Record NominationMessage : Type := mkNominationMessage {
  nm_I : Z;
  nm_X : list SlotValue;
  nm_Y : list SlotValue;
  nm_D : QuorumSlice
}.

Record NominationState : Type := mkNominationState {
  X : list SlotValue;
  Y : list SlotValue;
  Z_ : list SlotValue;
  N : gmap string NominationMessage;
  ns_publicKey : string;
  ns_D : QuorumSlice
}.

Definition NewNominationState (publicKey : string) (qs : QuorumSlice)
  : NominationState :=
  {| X := []; Y := []; Z_ := []; N := ∅;
     ns_publicKey := publicKey; ns_D := qs |}.

Definition HasNomination (s : NominationState) : bool :=
  bool_decide (0 < length (X s))%nat.

Definition set_X (s : NominationState) (l : list SlotValue) :=
  {| X := l; Y := Y s; Z_ := Z_ s; N := N s;
     ns_publicKey := ns_publicKey s; ns_D := ns_D s |}.
Definition set_Y (s : NominationState) (l : list SlotValue) :=
  {| X := X s; Y := l; Z_ := Z_ s; N := N s;
     ns_publicKey := ns_publicKey s; ns_D := ns_D s |}.
Definition set_Z (s : NominationState) (l : list SlotValue) :=
  {| X := X s; Y := Y s; Z_ := l; N := N s;
     ns_publicKey := ns_publicKey s; ns_D := ns_D s |}.
Definition set_N (s : NominationState) (m : gmap string NominationMessage) :=
  {| X := X s; Y := Y s; Z_ := Z_ s; N := m;
     ns_publicKey := ns_publicKey s; ns_D := ns_D s |}.

Definition SetDefault (s : NominationState) (v : SlotValue) : NominationState :=
  if HasNomination s then s else set_X s [v].

Definition PredictValue (s : NominationState) : outcome SlotValue :=
  if bool_decide (0 < length (Z_ s))%nat then Returns (CombineSlice (Z_ s))
  else if bool_decide (0 < length (Y s))%nat then Returns (CombineSlice (Y s))
  else if bool_decide (0 < length (X s))%nat then Returns (CombineSlice (X s))
  else Panic "PredictValue was called when HasNomination was false".

Definition ns_QuorumSlice (s : NominationState) (node : string)
  : option QuorumSlice :=
  if bool_decide (node = ns_publicKey s) then Some (ns_D s)
  else nm_D <$> N s !! node.

#[export] Instance NominationState_finder : QuorumFinder NominationState :=
  {| PublicKey := ns_publicKey; QuorumSliceOf := ns_QuorumSlice |}.

(** The names of the peers whose latest message passes [test], as the
    [range] loops of the source collect them. *)
Definition peers_where {M : Type} (test : M → bool) (msgs : gmap string M)
  : list string :=
  (List.filter (λ e, test e.2) (map_to_list msgs)).*1.

Definition nom_votedOrAccepted (s : NominationState) (v : SlotValue)
  : list string :=
  (if HasSlotValue (X s) v then [ns_publicKey s] else []) ++
  peers_where (λ m, HasSlotValue (nm_Y m) v || HasSlotValue (nm_X m) v) (N s).

Definition nom_accepted (s : NominationState) (v : SlotValue) : list string :=
  (if HasSlotValue (Y s) v then [ns_publicKey s] else []) ++
  peers_where (λ m, HasSlotValue (nm_Y m) v) (N s).

(** Returns the new state and whether anything changed. *)
Definition MaybeAdvance (s : NominationState) (v : SlotValue)
  : NominationState * bool :=
  if HasSlotValue (Z_ s) v then (s, false)
  else
    let votedOrAccepted := nom_votedOrAccepted s v in
    let accepted := nom_accepted s v in
    let accept := MeetsQuorum s votedOrAccepted || BlockedBy (ns_D s) accepted in
    let '(s1, changed) :=
      if accept && negb (HasSlotValue (Y s) v)
      then (set_Y s (Y s ++ [v]), true)
      else (s, false) in
    if MeetsQuorum s1 accepted
    then (set_Z s1 (Z_ s1 ++ [v]), true)
    else (s1, changed).

Definition add_new (l : list SlotValue) (v : SlotValue) : list SlotValue :=
  if HasSlotValue l v then l else l ++ [v].

Definition nom_Handle (s : NominationState) (node : string)
  (m : NominationMessage) : NominationState :=
  let old := N s !! node in
  let oldLenX := from_option (λ o, length (nm_X o)) 0%nat old in
  let oldLenY := from_option (λ o, length (nm_Y o)) 0%nat old in
  if bool_decide (length (nm_X m) < oldLenX)%nat then s
  else if bool_decide (length (nm_Y m) < oldLenY)%nat then s
  else if bool_decide (length (nm_X m) = oldLenX)
          && bool_decide (length (nm_Y m) = oldLenY) then s
  else
    let s1 := set_N s (<[node := m]> (N s)) in
    let newX := drop oldLenX (nm_X m) in
    let newY := drop oldLenY (nm_Y m) in
    let touched := fold_left add_new newY (fold_left add_new newX []) in
    let s2 := set_X s1 (fold_left add_new newX (X s1)) in
    fold_left (λ st v, (MaybeAdvance st v).1) touched s2.

(** The calls a client of the nomination state can make. *)
Inductive NominationCall : Type :=
| CallSetDefault (v : SlotValue)
| CallHandle (node : string) (m : NominationMessage)
| CallMaybeAdvance (v : SlotValue).

Definition nom_call (s : NominationState) (c : NominationCall)
  : NominationState :=
  match c with
  | CallSetDefault v => SetDefault s v
  | CallHandle node m => nom_Handle s node m
  | CallMaybeAdvance v => (MaybeAdvance s v).1
  end.

Definition nom_run (s : NominationState) (calls : list NominationCall)
  : NominationState :=
  fold_left nom_call calls s.

(** ** Ballots and ballot messages *)

Inductive Phase : Type := Prepare | Confirm | Externalize.

#[export] Instance Phase_eq_dec : EqDecision Phase.
Proof. solve_decision. Defined.

Record Ballot : Type := mkBallot {
  n : Z;
  x : SlotValue
}.

Record PrepareMessage : Type := mkPrepareMessage {
  pm_T : Phase;
  pm_I : Z;
  Bn : Z;
  Bx : SlotValue;
  Pn : Z;
  Px : SlotValue;
  Ppn : Z;
  Ppx : SlotValue;
  pm_Cn : Z;
  pm_Hn : Z;
  pm_D : QuorumSlice
}.

Record ConfirmMessage : Type := mkConfirmMessage {
  cm_T : Phase;
  cm_I : Z;
  cm_X : SlotValue;
  cm_Pn : Z;
  cm_Cn : Z;
  cm_Hn : Z;
  cm_D : QuorumSlice
}.

Record ExternalizeMessage : Type := mkExternalizeMessage {
  em_T : Phase;
  em_I : Z;
  em_X : SlotValue;
  em_Cn : Z;
  em_Hn : Z;
  em_D : QuorumSlice
}.

(** The three implementations of the interface BallotMessage. *)
Inductive BallotMessage : Type :=
| MPrepare (m : PrepareMessage)
| MConfirm (m : ConfirmMessage)
| MExternalize (m : ExternalizeMessage).

(** Modelled from the spec: the method QuorumSlice() of the ballot messages
    is not among the sources; every message carries the sender's slice in
    its field D. *)
Definition bm_QuorumSlice (m : BallotMessage) : QuorumSlice :=
  match m with
  | MPrepare m => pm_D m
  | MConfirm m => cm_D m
  | MExternalize m => em_D m
  end.

(** The remaining methods of the interface BallotMessage, and the order
    Compare on ballot messages.  Their bodies are not among the sources. *)
Class BallotMessageMethods : Type := {
  AcceptAsPrepared : BallotMessage → Z → SlotValue → bool;
  VoteToPrepare : BallotMessage → Z → SlotValue → bool;
  AcceptAsCommitted : BallotMessage → Z → SlotValue → bool;
  VoteToCommit : BallotMessage → Z → SlotValue → bool;
  BallotNumber : BallotMessage → Z;
  Compare : BallotMessage → BallotMessage → Z
}.
Context `{BallotMessageMethods}.

(** Modelled from the spec: the function gtecompat is not among the
    sources.  A ballot (n, x) is covered by a recorded ballot when the
    latter has the "same x" and "n ≤ existing.n"; a nil ballot covers
    nothing. *)
Definition gtecompat (a : option Ballot) (b : Ballot) : bool :=
  match a with
  | Some a => bool_decide (n b ≤ n a) && Equal (x a) (x b)
  | None => false
  end.

(** Modelled from the spec: the order on ballots is not among the sources.
    "Ordering is lexicographic on (n, x-canonical)"; [value_lt] is the
    canonical order on slot values. *)
Definition ballot_lt (value_lt : SlotValue → SlotValue → Prop) (a c : Ballot)
  : Prop :=
  n a < n c ∨ (n a = n c ∧ value_lt (x a) (x c)).

(** ** The ballot state *)

Record BallotState : Type := mkBallotState {
  phase : Phase;
  b : option Ballot;
  p : option Ballot;
  pPrime : option Ballot;
  cn : Z;
  hn : Z;
  z : option SlotValue;
  M : gmap string BallotMessage;
  bs_publicKey : string;
  bs_D : QuorumSlice
}.

Definition NewBallotState (publicKey : string) (qs : QuorumSlice) : BallotState :=
  {| phase := Prepare; b := None; p := None; pPrime := None; cn := 0; hn := 0;
     z := None; M := ∅; bs_publicKey := publicKey; bs_D := qs |}.

Definition bs_QuorumSlice (s : BallotState) (node : string) : option QuorumSlice :=
  if bool_decide (node = bs_publicKey s) then Some (bs_D s)
  else bm_QuorumSlice <$> M s !! node.

#[export] Instance BallotState_finder : QuorumFinder BallotState :=
  {| PublicKey := bs_publicKey; QuorumSliceOf := bs_QuorumSlice |}.

Definition set_phase (s : BallotState) (ph : Phase) : BallotState :=
  {| phase := ph; b := b s; p := p s; pPrime := pPrime s; cn := cn s; hn := hn s;
     z := z s; M := M s; bs_publicKey := bs_publicKey s; bs_D := bs_D s |}.
Definition set_b (s : BallotState) (v : option Ballot) : BallotState :=
  {| phase := phase s; b := v; p := p s; pPrime := pPrime s; cn := cn s; hn := hn s;
     z := z s; M := M s; bs_publicKey := bs_publicKey s; bs_D := bs_D s |}.
Definition set_p (s : BallotState) (v : option Ballot) : BallotState :=
  {| phase := phase s; b := b s; p := v; pPrime := pPrime s; cn := cn s; hn := hn s;
     z := z s; M := M s; bs_publicKey := bs_publicKey s; bs_D := bs_D s |}.
Definition set_pPrime (s : BallotState) (v : option Ballot) : BallotState :=
  {| phase := phase s; b := b s; p := p s; pPrime := v; cn := cn s; hn := hn s;
     z := z s; M := M s; bs_publicKey := bs_publicKey s; bs_D := bs_D s |}.
Definition set_cn (s : BallotState) (v : Z) : BallotState :=
  {| phase := phase s; b := b s; p := p s; pPrime := pPrime s; cn := v; hn := hn s;
     z := z s; M := M s; bs_publicKey := bs_publicKey s; bs_D := bs_D s |}.
Definition set_hn (s : BallotState) (v : Z) : BallotState :=
  {| phase := phase s; b := b s; p := p s; pPrime := pPrime s; cn := cn s; hn := v;
     z := z s; M := M s; bs_publicKey := bs_publicKey s; bs_D := bs_D s |}.
Definition set_z (s : BallotState) (v : option SlotValue) : BallotState :=
  {| phase := phase s; b := b s; p := p s; pPrime := pPrime s; cn := cn s; hn := hn s;
     z := v; M := M s; bs_publicKey := bs_publicKey s; bs_D := bs_D s |}.
Definition set_M (s : BallotState) (v : gmap string BallotMessage) : BallotState :=
  {| phase := phase s; b := b s; p := p s; pPrime := pPrime s; cn := cn s; hn := hn s;
     z := z s; M := v; bs_publicKey := bs_publicKey s; bs_D := bs_D s |}.

(** [b.x] equals [v], for a ballot pointer that may be nil. *)
Definition has_value (o : option Ballot) (v : SlotValue) : bool :=
  match o with
  | Some bl => Equal (x bl) v
  | None => false
  end.

(** [o != nil && o.n >= k && Equal(o.x, v)] *)
Definition covers (o : option Ballot) (k : Z) (v : SlotValue) : bool :=
  match o with
  | Some bl => bool_decide (k ≤ n bl) && Equal (x bl) v
  | None => false
  end.

(** The abort of the current ballot: [s.hn = 0; s.cn = 0; s.b = nil]. *)
Definition abort (s : BallotState) : BallotState :=
  set_b (set_cn (set_hn s 0) 0) None.

Definition self_if (c : bool) (s : BallotState) : list string :=
  if c then [bs_publicKey s] else [].

Definition MaybeAcceptAsPrepared (s : BallotState) (k : Z) (v : SlotValue)
  : outcome BallotState :=
  if negb (bool_decide (phase s = Prepare)) then Returns s
  else if bool_decide (k = 0) then Returns s
  else if covers (p s) k v then Returns s
  else if covers (pPrime s) k v then Returns s
  else if from_option (λ pp, bool_decide (k ≤ n pp)) false (pPrime s) then Returns s
  else
    let votedOrAccepted :=
      self_if (covers (b s) k v) s ++
      peers_where (λ m, AcceptAsPrepared m k v || VoteToPrepare m k v) (M s) in
    let accepted := peers_where (λ m, AcceptAsPrepared m k v) (M s) in
    if negb (MeetsQuorum s votedOrAccepted) && negb (BlockedBy (bs_D s) accepted)
    then Returns s
    else
      let s1 :=
        if bool_decide (is_Some (b s)) && bool_decide (hn s ≤ k)
           && negb (has_value (b s) v)
        then abort s else s in
      let ballot := {| n := k; x := v |} in
      match p s1 with
      | None => Returns (set_p s1 (Some ballot))
      | Some pb =>
          if Equal (x pb) v then
            if bool_decide (k ≤ n pb)
            then Panic "should have short circuited already"
            else Returns (set_p s1 (Some {| n := k; x := x pb |}))
          else if bool_decide (n pb ≤ k)
          then Returns (set_p (set_pPrime s1 (p s1)) (Some ballot))
          else Returns (set_pPrime s1 (Some ballot))
      end.

(** [log.Fatal] is never reached (see [MaybeAcceptAsPrepared_returns]); the
    other operations use the state the call returns. *)
Definition accept_as_prepared (s : BallotState) (k : Z) (v : SlotValue)
  : BallotState :=
  match MaybeAcceptAsPrepared s k v with
  | Returns s' => s'
  | Panic _ => s
  end.

Definition MaybeConfirmAsPrepared (s : BallotState) (k : Z) (v : SlotValue)
  : BallotState :=
  if negb (bool_decide (phase s = Prepare)) then s
  else if bool_decide (k ≤ hn s) then s
  else
    let ballot := {| n := k; x := v |} in
    let accepted :=
      self_if (gtecompat (p s) ballot || gtecompat (pPrime s) ballot) s ++
      peers_where (λ m, AcceptAsPrepared m k v) (M s) in
    if negb (MeetsQuorum s accepted) then s
    else
      let s1 :=
        if bool_decide (is_Some (b s)) && negb (has_value (b s) v)
        then set_cn (set_hn (set_b s None) 0) 0 else s in
      match b s1 with
      | None => set_z (set_cn (set_hn (set_b s1 (Some ballot)) k) k) (Some v)
      | Some _ => set_hn s1 k
      end.

Definition in_range (s : BallotState) (k : Z) : bool :=
  bool_decide (cn s ≤ k) && bool_decide (k ≤ hn s).

Definition MaybeAcceptAsCommitted (s : BallotState) (k : Z) (v : SlotValue)
  : BallotState :=
  if bool_decide (phase s = Externalize) then s
  else if bool_decide (phase s = Confirm) && in_range s k then s
  else
    let votedOrAccepted :=
      self_if (bool_decide (phase s = Prepare) && has_value (b s) v
               && negb (bool_decide (cn s = 0)) && in_range s k) s ++
      peers_where (λ m, AcceptAsCommitted m k v || VoteToCommit m k v) (M s) in
    let accepted := peers_where (λ m, AcceptAsCommitted m k v) (M s) in
    if negb (MeetsQuorum s votedOrAccepted) && negb (BlockedBy (bs_D s) accepted)
    then s
    else
      let s1 := set_phase s Confirm in
      if negb (has_value (b s1) v)
      then set_z (set_hn (set_cn (set_b s1 (Some {| n := k; x := v |})) k) k) (Some v)
      else
        let s2 := if bool_decide (k < cn s1) then set_cn s1 k else s1 in
        if bool_decide (hn s2 < k) then set_hn s2 k else s2.

Definition MaybeConfirmAsCommitted (s : BallotState) (k : Z) (v : SlotValue)
  : BallotState :=
  if bool_decide (phase s = Prepare) then s
  else if negb (has_value (b s) v) then s
  else if negb (bool_decide (phase s = Confirm)) && in_range s k then s
  else
    let accepted :=
      self_if (bool_decide (phase s = Confirm) && in_range s k) s ++
      peers_where (λ m, AcceptAsCommitted m k v) (M s) in
    if negb (MeetsQuorum s accepted) then s
    else if bool_decide (phase s = Confirm)
    then set_hn (set_cn (set_phase s Externalize) k) k
    else
      let s2 := if bool_decide (k < cn s) then set_cn s k else s in
      if bool_decide (hn s2 < k) then set_hn s2 k else s2.

(** Returns the new state and whether the ballot number was bumped. *)
Definition MaybeNextBallot (s : BallotState) : BallotState * bool :=
  match z s, b s with
  | Some _, Some bl =>
      let current := n bl in
      let higher := peers_where (λ m, bool_decide (current < BallotNumber m)) (M s) in
      if negb (BlockedBy (bs_D s) higher) then (s, false)
      else (set_b s (Some {| n := int_succ (n bl); x := x bl |}), true)
  | _, _ => (s, false)
  end.

Definition Investigate (s : BallotState) (k : Z) (v : SlotValue) : BallotState :=
  MaybeConfirmAsCommitted
    (MaybeAcceptAsCommitted
       (MaybeConfirmAsPrepared (accept_as_prepared s k v) k v) k v) k v.

(** [for i := m.Cn; i <= m.Hn; i++ { s.Investigate(i, m.X) }]; the flag
    tells whether the loop ended within [fuel] rounds. *)
Fixpoint investigate_range (fuel : nat) (s : BallotState) (i hi : Z)
  (v : SlotValue) : BallotState * bool :=
  if bool_decide (i ≤ hi) then
    match fuel with
    | O => (s, false)
    | S fuel' => investigate_range fuel' (Investigate s i v) (int_succ i) hi v
    end
  else (s, true).

Definition investigate_message (fuel : nat) (s : BallotState)
  (message : BallotMessage) : BallotState * bool :=
  match message with
  | MPrepare m =>
      (Investigate (Investigate (Investigate s (Bn m) (Bx m)) (Pn m) (Px m))
         (Ppn m) (Ppx m), true)
  | MConfirm m => (Investigate s (cm_Hn m) (cm_X m), true)
  | MExternalize m => investigate_range fuel s (em_Cn m) (em_Hn m) (em_X m)
  end.

(** The [for] loop of Handle: investigate, then bump and go round again.
    The flag tells whether the loop ended within [fuel] rounds. *)
Fixpoint handle_loop (fuel : nat) (s : BallotState) (message : BallotMessage)
  : BallotState * bool :=
  match fuel with
  | O => (s, false)
  | S fuel' =>
      let '(s1, finished) := investigate_message fuel s message in
      if finished then
        let '(s2, bumped) := MaybeNextBallot s1 in
        if bumped then handle_loop fuel' s2 message else (s2, true)
      else (s1, false)
  end.

Definition is_stale (s : BallotState) (node : string) (message : BallotMessage)
  : bool :=
  match M s !! node with
  | Some old => bool_decide (0 ≤ Compare old message)
  | None => false
  end.

Definition bs_Handle (fuel : nat) (s : BallotState) (node : string)
  (message : BallotMessage) : BallotState * bool :=
  if is_stale s node message then (s, true)
  else handle_loop fuel (set_M s (<[node := message]> (M s))) message.

Definition HasMessage (s : BallotState) : bool := bool_decide (is_Some (b s)).

(** The calls a client of the ballot state can make.  Handle takes the
    number of rounds its loops may run; when they run out, the state returned
    is one the real call passes through. *)
Inductive BallotCall : Type :=
| CallAcceptAsPrepared (k : Z) (v : SlotValue)
| CallConfirmAsPrepared (k : Z) (v : SlotValue)
| CallAcceptAsCommitted (k : Z) (v : SlotValue)
| CallConfirmAsCommitted (k : Z) (v : SlotValue)
| CallInvestigate (k : Z) (v : SlotValue)
| CallNextBallot
| CallBallotHandle (fuel : nat) (node : string) (message : BallotMessage).

Definition bs_call (s : BallotState) (c : BallotCall) : BallotState :=
  match c with
  | CallAcceptAsPrepared k v => accept_as_prepared s k v
  | CallConfirmAsPrepared k v => MaybeConfirmAsPrepared s k v
  | CallAcceptAsCommitted k v => MaybeAcceptAsCommitted s k v
  | CallConfirmAsCommitted k v => MaybeConfirmAsCommitted s k v
  | CallInvestigate k v => Investigate s k v
  | CallNextBallot => (MaybeNextBallot s).1
  | CallBallotHandle fuel node message => (bs_Handle fuel s node message).1
  end.

Definition bs_run (s : BallotState) (calls : list BallotCall) : BallotState :=
  fold_left bs_call calls s.

(** ** The slot driver *)

(** The values of the interface Message that Handle tells apart. *)
Inductive Message : Type :=
| MsgNomination (m : NominationMessage)
| MsgBallot (m : BallotMessage)
| MsgOther.

Definition nil_dereference : string :=
  "invalid memory address or nil pointer dereference".

Definition bs_Message (s : BallotState) (slot : Z) (qs : QuorumSlice)
  : outcome Message :=
  match b s with
  | None => Panic "coding error"
  | Some bl =>
      Returns (MsgBallot
        match phase s with
        | Prepare =>
            MPrepare {| pm_T := Prepare; pm_I := slot;
                        Bn := n bl; Bx := x bl;
                        Pn := from_option n 0 (p s);
                        Px := from_option x zeroSlotValue (p s);
                        Ppn := from_option n 0 (pPrime s);
                        Ppx := from_option x zeroSlotValue (pPrime s);
                        pm_Cn := cn s; pm_Hn := hn s; pm_D := qs |}
        | Confirm =>
            MConfirm {| cm_T := Confirm; cm_I := slot; cm_X := x bl;
                        cm_Pn := from_option n 0 (p s);
                        cm_Cn := cn s; cm_Hn := hn s; cm_D := qs |}
        | Externalize =>
            MExternalize {| em_T := Externalize; em_I := slot; em_X := x bl;
                            em_Cn := cn s; em_Hn := hn s; em_D := qs |}
        end)
  end.

Record StateBuilder : Type := mkStateBuilder {
  slot : Z;
  start : Z;
  values : gmap Z SlotValue;
  nState : option NominationState;
  bState : option BallotState;
  sb_D : QuorumSlice;
  sb_publicKey : string
}.

(** [now] is the reading of the clock the constructor takes. *)
Definition NewStateBuilder (now : Z) (publicKey : string)
  (members : list string) (threshold : Z) : StateBuilder :=
  let qs := {| Members := members; Threshold := threshold |} in
  {| slot := 1;
     start := now;
     values := ∅;
     nState := Some (NewNominationState publicKey qs);
     bState := None;
     sb_D := qs;
     sb_publicKey := publicKey |}.

Definition set_nState (sb : StateBuilder) (ns : NominationState) : StateBuilder :=
  {| slot := slot sb; start := start sb; values := values sb;
     nState := Some ns; bState := bState sb;
     sb_D := sb_D sb; sb_publicKey := sb_publicKey sb |}.

(** [clock] is the formatted time of day that goes into the comment of the
    default nomination.  The driver is returned along with the messages,
    since SetDefault may have changed its nomination state. *)
Definition OutgoingMessages (sb : StateBuilder) (clock : string)
  : outcome (list Message * StateBuilder) :=
  match nState sb with
  | None => Panic nil_dereference
  | Some ns =>
      let ns' :=
        if negb (HasNomination ns)
        then SetDefault ns
               (MakeSlotValue ("this is " +:+ sb_publicKey sb +:+ " at " +:+ clock))
        else ns in
      let sb' := set_nState sb ns' in
      let answer :=
        [MsgNomination {| nm_I := slot sb'; nm_X := X ns'; nm_Y := Y ns';
                          nm_D := sb_D sb' |}] in
      match bState sb' with
      | None => Panic nil_dereference
      | Some bs =>
          if HasMessage bs then
            match bs_Message bs (slot sb') (sb_D sb') with
            | Returns m => Returns (answer ++ [m], sb')
            | Panic e => Panic e
            end
          else Returns (answer, sb')
      end
  end.

End Consensus.

(** ** The operation codec (util/operation.go) *)

Section Operations.
(** [OpType] stands for the struct types whose pointers implement the
    interface Operation (Go's reflect.Type), [Struct] for the values of
    such structs. *)
Context {OpType Struct : Type} `{EqDecision OpType}.

(** An interface value of type Operation: the nil interface, a nil pointer
    of some type, or a pointer to a struct. *)
Inductive Operation : Type :=
| NilOperation
| NilPointer (t : OpType)
| PointerTo (t : OpType) (v : Struct).

(** The method OperationType(). *)
Variable OperationType : OpType → Struct → string.

(** What the repository uses of encoding/json.  [json_envelope T O] is the
    text of an object with the fields T and O; [json_parse_envelope] reads
    such a text into a PartiallyDecodedOperation; [json_marshal] writes a
    struct; [json_unmarshal t raw] decodes [raw] into an Operation that
    holds a fresh pointer of type [t]: it fails ([None]), leaves the
    interface nil ([Some None], on a JSON null) or fills the struct. *)
Variable json_marshal : OpType → Struct → option string.
Variable json_envelope : string → string → string.
Variable json_parse_envelope : string → option (string * string).
Variable json_unmarshal : OpType → string → option (option Struct).

(** OperationTypeMap is a package-level variable; it is passed explicitly.
    The operation registered is a pointer to the struct [v] of type [t], as
    the function demands. *)
Definition RegisterOperationType (OperationTypeMap : gmap string OpType)
  (t : OpType) (v : Struct) : outcome (gmap string OpType) :=
  let name := OperationType t v in
  match OperationTypeMap !! name with
  | Some _ => Panic ("operation type registered multiple times: " +:+ name)
  | None => Returns (<[name := t]> OperationTypeMap)
  end.

Definition EncodeOperation (op : Operation) : outcome string :=
  match op with
  | NilOperation | NilPointer _ => Panic "you should not EncodeOperation(nil)"
  | PointerTo t v =>
      match json_marshal t v with
      | Some raw => Returns (json_envelope (OperationType t v) raw)
      | None => Panic "json: error calling Marshal"
      end
  end.

(** The pair (Operation, error) that DecodeOperation returns. *)
Definition DecodeOperation (OperationTypeMap : gmap string OpType)
  (encoded : string) : Operation * option string :=
  match json_parse_envelope encoded with
  | None => (NilOperation, Some "json: cannot unmarshal")
  | Some (name, raw) =>
      match OperationTypeMap !! name with
      | None => (NilOperation, Some ("unregistered op type: " +:+ name))
      | Some opType =>
          match json_unmarshal opType raw with
          | None => (NilOperation, Some "json: cannot unmarshal")
          | Some None =>
              (NilOperation, Some "it looks like a nil operation got encoded")
          | Some (Some v) => (PointerTo opType v, None)
          end
      end
  end.

Definition EncodeThenDecodeOperation (OperationTypeMap : gmap string OpType)
  (operation : Operation) : outcome Operation :=
  match EncodeOperation operation with
  | Panic e => Panic e
  | Returns encoded =>
      match DecodeOperation OperationTypeMap encoded with
      | (op, None) => Returns op
      | (_, Some err) => Panic ("EncodeThenDecodeOperation error:" +:+ err)
      end
  end.

End Operations.

(** * Properties *)

(** ** The quorum predicate *)

Section QuorumFacts.
Context {A : Type} `{QuorumFinder A}.

Lemma has_node_true (S : list string) (u : string) :
  has_node S u = true ↔ u ∈ S.
Proof. unfold has_node. apply bool_decide_eq_true. Qed.

Lemma filter_length_mono {B : Type} (g h : B → bool) (l : list B) :
  (∀ a, g a = true → h a = true) →
  (length (List.filter g l) ≤ length (List.filter h l))%nat.
Proof.
  intros Hgh. induction l as [|a l IH]; simpl; [lia|].
  destruct (g a) eqn:Hg.
  - rewrite (Hgh a Hg). simpl. lia.
  - destruct (h a); simpl; lia.
Qed.

Lemma members_in_mono (qs : QuorumSlice) (S1 S2 : list string) :
  (∀ u, u ∈ S1 → u ∈ S2) → members_in qs S1 ≤ members_in qs S2.
Proof.
  intros Hsub. unfold members_in. apply inj_le, filter_length_mono.
  intros u. rewrite !has_node_true. apply Hsub.
Qed.

Lemma SatisfiedBy_mono (qs : QuorumSlice) (S1 S2 : list string) :
  (∀ u, u ∈ S1 → u ∈ S2) → SatisfiedBy qs S1 = true → SatisfiedBy qs S2 = true.
Proof.
  intros Hsub. unfold SatisfiedBy. rewrite !bool_decide_eq_true.
  pose proof (members_in_mono qs S1 S2 Hsub). lia.
Qed.

Lemma BlockedBy_mono (qs : QuorumSlice) (S1 S2 : list string) :
  (∀ u, u ∈ S1 → u ∈ S2) → BlockedBy qs S1 = true → BlockedBy qs S2 = true.
Proof.
  intros Hsub. unfold BlockedBy. rewrite !bool_decide_eq_true.
  pose proof (members_in_mono qs S1 S2 Hsub). lia.
Qed.

Lemma elem_of_prune (f : A) (Q : list string) (u : string) :
  u ∈ prune f Q ↔ u ∈ Q ∧ slice_satisfied f Q u = true.
Proof. unfold prune. rewrite !list_elem_of_In. apply filter_In. Qed.

Lemma slice_satisfied_mono (f : A) (Q1 Q2 : list string) (u : string) :
  (∀ w, w ∈ Q1 → w ∈ Q2) →
  slice_satisfied f Q1 u = true → slice_satisfied f Q2 u = true.
Proof.
  intros Hsub. unfold slice_satisfied.
  destruct (QuorumSliceOf f u); [apply SatisfiedBy_mono, Hsub | done].
Qed.

Lemma prune_mono (f : A) (Q1 Q2 : list string) :
  (∀ w, w ∈ Q1 → w ∈ Q2) → ∀ w, w ∈ prune f Q1 → w ∈ prune f Q2.
Proof.
  intros Hsub w. rewrite !elem_of_prune. intros [Hw Hsat]. split.
  - by apply Hsub.
  - by apply (slice_satisfied_mono f Q1).
Qed.

Lemma prune_length (f : A) (Q : list string) :
  (length (prune f Q) ≤ length Q)%nat.
Proof. apply filter_length_le. Qed.

Lemma prune_same_length (f : A) (Q : list string) :
  length (prune f Q) = length Q → prune f Q = Q.
Proof.
  intros Hlen. unfold prune.
  apply forallb_filter_id, filter_length_forallb, Hlen.
Qed.

Lemma prune_iter_fixed (f : A) (k : nat) (Q : list string) :
  prune f Q = Q → prune_iter f k Q = Q.
Proof.
  intros Hfix. induction k as [|k IH]; simpl; [done|]. by rewrite Hfix.
Qed.

(** [length Q] rounds reach a fixed point of the pruning. *)
Lemma prune_iter_stable (f : A) (k : nat) :
  ∀ Q, (length Q ≤ k)%nat → prune f (prune_iter f k Q) = prune_iter f k Q.
Proof.
  induction k as [|k IH]; intros Q Hlen; simpl.
  - destruct Q; [done | simpl in Hlen; lia].
  - pose proof (prune_length f Q) as Hle.
    destruct (decide (length (prune f Q) = length Q)) as [Heq|Hne].
    + apply prune_same_length in Heq. rewrite Heq.
      rewrite (prune_iter_fixed f k Q Heq). exact Heq.
    + apply IH. lia.
Qed.

(** A set that the pruning leaves alone survives every round of the pruning
    of a larger set. *)
Lemma fixed_below_prune_iter (f : A) (F : list string) :
  prune f F = F →
  ∀ k Q, (∀ w, w ∈ F → w ∈ Q) → ∀ w, w ∈ F → w ∈ prune_iter f k Q.
Proof.
  intros Hfix k. induction k as [|k IH]; intros Q Hsub w Hw; simpl.
  - by apply Hsub.
  - apply IH; [|done]. intros w' Hw'. rewrite <- Hfix in Hw'.
    revert Hw'. by apply prune_mono.
Qed.

Lemma prune_iter_subset (f : A) (k : nat) :
  ∀ Q w, w ∈ prune_iter f k Q → w ∈ Q.
Proof.
  induction k as [|k IH]; intros Q w Hw; simpl in Hw; [done|].
  apply IH in Hw. apply elem_of_prune in Hw. tauto.
Qed.

Lemma elem_of_defined (f : A) (l : list string) (u : string) :
  u ∈ List.filter (slice_defined f) l ↔ u ∈ l ∧ is_Some (QuorumSliceOf f u).
Proof.
  rewrite !list_elem_of_In, filter_In. unfold slice_defined.
  by rewrite bool_decide_eq_true.
Qed.

(** The quorum check is monotone in the candidate set, and the node itself
    need not be listed in it. *)
Lemma MeetsQuorum_mono (f : A) (l1 l2 : list string) :
  (∀ u, u ∈ l1 → u ∈ l2 ∨ u = PublicKey f) →
  MeetsQuorum f l1 = true → MeetsQuorum f l2 = true.
Proof.
  intros Hsub. unfold MeetsQuorum. cbv zeta. rewrite !has_node_true.
  set (Q1 := List.filter (slice_defined f) (PublicKey f :: l1)).
  set (Q2 := List.filter (slice_defined f) (PublicKey f :: l2)).
  intros Hin.
  apply (fixed_below_prune_iter f (prune_iter f (length Q1) Q1)); [| |done].
  - by apply prune_iter_stable.
  - intros w Hw. apply prune_iter_subset in Hw.
    apply elem_of_defined in Hw as [Hw Hdef]. apply elem_of_defined.
    split; [|done]. apply elem_of_cons in Hw as [->|Hw]; [left|].
    apply elem_of_cons. destruct (Hsub w Hw) as [?| ->]; [by right | by left].
Qed.

(** Only the members of the candidate list matter, not their order or their
    repetitions: the order in which Go walks a map is immaterial. *)
Lemma BlockedBy_same_members (qs : QuorumSlice) (S1 S2 : list string) :
  (∀ u, u ∈ S1 ↔ u ∈ S2) → BlockedBy qs S1 = BlockedBy qs S2.
Proof.
  intros Hsame. unfold BlockedBy.
  pose proof (members_in_mono qs S1 S2 (λ u, proj1 (Hsame u))).
  pose proof (members_in_mono qs S2 S1 (λ u, proj2 (Hsame u))).
  by replace (members_in qs S2) with (members_in qs S1) by lia.
Qed.

Lemma MeetsQuorum_same_members (f : A) (l1 l2 : list string) :
  (∀ u, u ∈ l1 ↔ u ∈ l2) → MeetsQuorum f l1 = MeetsQuorum f l2.
Proof.
  intros Hsame.
  destruct (MeetsQuorum f l1) eqn:H1, (MeetsQuorum f l2) eqn:H2; try done.
  - rewrite (MeetsQuorum_mono f l1 l2) in H2; [done| |done].
    intros u Hu. left. by apply Hsame.
  - rewrite (MeetsQuorum_mono f l2 l1) in H1; [done| |done].
    intros u Hu. left. by apply Hsame.
Qed.

End QuorumFacts.

(** The quorum check only looks at the name and the slice lookup of the
    finder it is given. *)
Lemma prune_iter_ext {A B : Type} `{QuorumFinder A} `{QuorumFinder B}
  (f : A) (g : B) :
  (∀ u, QuorumSliceOf f u = QuorumSliceOf g u) →
  ∀ k Q, prune_iter f k Q = prune_iter g k Q.
Proof.
  intros Hslice k. induction k as [|k IH]; intros Q; simpl; [done|].
  replace (prune g Q) with (prune f Q); [apply IH|].
  unfold prune. apply filter_ext. intros u. unfold slice_satisfied.
  by rewrite Hslice.
Qed.

Lemma MeetsQuorum_ext {A B : Type} `{QuorumFinder A} `{QuorumFinder B}
  (f : A) (g : B) (l : list string) :
  PublicKey f = PublicKey g →
  (∀ u, QuorumSliceOf f u = QuorumSliceOf g u) →
  MeetsQuorum f l = MeetsQuorum g l.
Proof.
  intros Hkey Hslice. unfold MeetsQuorum. cbv zeta. rewrite Hkey.
  replace (List.filter (slice_defined g) (PublicKey g :: l))
    with (List.filter (slice_defined f) (PublicKey g :: l)).
  - by rewrite (prune_iter_ext f g Hslice).
  - apply filter_ext. intros u. unfold slice_defined. by rewrite Hslice.
Qed.

(** ** Nomination *)

Section NominationFacts.
Context {SlotValue : Type} `{EqDecision SlotValue}.
Implicit Types (s : NominationState (SlotValue := SlotValue)) (v w : SlotValue).

Lemma HasSlotValue_true (l : list SlotValue) v :
  HasSlotValue l v = true ↔ v ∈ l.
Proof.
  unfold HasSlotValue. rewrite existsb_exists. split.
  - intros (w & Hin & Heq). apply bool_decide_eq_true in Heq. subst w.
    by apply list_elem_of_In.
  - intros Hin. exists v. split; [by apply list_elem_of_In|].
    by apply bool_decide_eq_true.
Qed.

Lemma HasSlotValue_false (l : list SlotValue) v :
  HasSlotValue l v = false ↔ v ∉ l.
Proof.
  rewrite <- HasSlotValue_true. destruct (HasSlotValue l v); split; congruence.
Qed.

Lemma elem_of_peers_where {Msg : Type} (test : Msg → bool)
  (msgs : gmap string Msg) (u : string) :
  u ∈ peers_where test msgs ↔ ∃ m, msgs !! u = Some m ∧ test m = true.
Proof.
  unfold peers_where. rewrite list_elem_of_fmap. split.
  - intros ([u' m] & -> & Hin). apply list_elem_of_In, filter_In in Hin.
    destruct Hin as [Hin Htest]. apply list_elem_of_In in Hin.
    apply elem_of_map_to_list in Hin. by exists m.
  - intros (m & Hm & Htest). exists (u, m). split; [done|].
    apply list_elem_of_In, filter_In. split; [|done].
    by apply list_elem_of_In, elem_of_map_to_list.
Qed.

Lemma peers_where_mono {Msg : Type} (g h : Msg → bool)
  (msgs : gmap string Msg) (u : string) :
  (∀ m, g m = true → h m = true) →
  u ∈ peers_where g msgs → u ∈ peers_where h msgs.
Proof.
  intros Hgh. rewrite !elem_of_peers_where. intros (m & Hm & Hg).
  exists m. eauto.
Qed.

(** Whoever has accepted [v] is counted among those who voted for it or
    accepted it, except possibly the node itself. *)
Lemma nom_accepted_sub s v (u : string) :
  u ∈ nom_accepted s v → u ∈ nom_votedOrAccepted s v ∨ u = PublicKey s.
Proof.
  unfold nom_accepted, nom_votedOrAccepted. rewrite !elem_of_app.
  intros [Hself|Hpeer].
  - right. destruct (HasSlotValue (Y s) v); [|by apply elem_of_nil in Hself].
    by apply list_elem_of_singleton in Hself.
  - left. right. revert Hpeer. apply peers_where_mono.
    intros m ->. done.
Qed.

(** *** What a call leaves alone and what it extends *)

(** [s'] extends [s]: the three lists have only grown at the end. *)
Definition extends s s' : Prop :=
  X s `prefix_of` X s' ∧ Y s `prefix_of` Y s' ∧ Z_ s `prefix_of` Z_ s'.

Lemma extends_refl s : extends s s.
Proof. by repeat split. Qed.

Lemma extends_trans s1 s2 s3 : extends s1 s2 → extends s2 s3 → extends s1 s3.
Proof.
  intros (?&?&?) (?&?&?). repeat split; by etrans.
Qed.

Definition Z_in_Y s : Prop := ∀ v, v ∈ Z_ s → v ∈ Y s.

Lemma MaybeAdvance_extends s v : extends s (MaybeAdvance s v).1.
Proof.
  unfold MaybeAdvance. destruct (HasSlotValue (Z_ s) v); [apply extends_refl|].
  cbv zeta.
  destruct (_ && negb (HasSlotValue (Y s) v)); destruct (MeetsQuorum _ _);
    simpl; repeat split; simpl; try done; by apply prefix_app_r.
Qed.

Lemma MaybeAdvance_N s v : N (MaybeAdvance s v).1 = N s.
Proof.
  unfold MaybeAdvance. destruct (HasSlotValue (Z_ s) v); [done|]. cbv zeta.
  by destruct (_ && negb (HasSlotValue (Y s) v)); destruct (MeetsQuorum _ _).
Qed.

Lemma MaybeAdvance_Z_in_Y s v : Z_in_Y s → Z_in_Y (MaybeAdvance s v).1.
Proof.
  intros Hinv. unfold MaybeAdvance.
  destruct (HasSlotValue (Z_ s) v); [done|]. cbv zeta.
  destruct (MeetsQuorum s (nom_votedOrAccepted s v)
            || BlockedBy (ns_D s) (nom_accepted s v)) eqn:Haccept;
    destruct (HasSlotValue (Y s) v) eqn:HY; simpl.
  - (* already accepted *)
    destruct (MeetsQuorum s (nom_accepted s v)); simpl; [|done].
    intros w Hw. simpl in *. apply elem_of_app in Hw as [Hw|Hw]; [by apply Hinv|].
    apply list_elem_of_singleton in Hw. subst w. by apply HasSlotValue_true.
  - (* accepted by this call *)
    destruct (MeetsQuorum _ (nom_accepted s v)); simpl; intros w Hw; simpl in *.
    + apply elem_of_app in Hw as [Hw|Hw]; apply elem_of_app; [left; by apply Hinv|by right].
    + apply elem_of_app. left. by apply Hinv.
  - destruct (MeetsQuorum s (nom_accepted s v)); simpl; [|done].
    intros w Hw. simpl in *. apply elem_of_app in Hw as [Hw|Hw]; [by apply Hinv|].
    apply list_elem_of_singleton in Hw. subst w. by apply HasSlotValue_true.
  - (* neither accepted before nor now: no quorum has accepted either *)
    destruct (MeetsQuorum s (nom_accepted s v)) eqn:Hconfirm; simpl; [|done].
    apply orb_false_iff in Haccept as [Hquorum _].
    rewrite (MeetsQuorum_mono s _ _ (nom_accepted_sub s v) Hconfirm) in Hquorum.
    done.
Qed.

Lemma add_new_prefix (l : list SlotValue) v : l `prefix_of` add_new l v.
Proof.
  unfold add_new. destruct (HasSlotValue l v); [done | by apply prefix_app_r].
Qed.

Lemma fold_add_new_prefix (vs l : list SlotValue) :
  l `prefix_of` fold_left add_new vs l.
Proof.
  revert l. induction vs as [|v vs IH]; intros l; simpl; [done|].
  etrans; [apply add_new_prefix | apply IH].
Qed.

Lemma fold_MaybeAdvance_extends (vs : list SlotValue) s :
  extends s (fold_left (λ st v, (MaybeAdvance st v).1) vs s).
Proof.
  revert s. induction vs as [|v vs IH]; intros s; simpl; [apply extends_refl|].
  eapply extends_trans; [apply MaybeAdvance_extends | apply IH].
Qed.

Lemma fold_MaybeAdvance_Z_in_Y (vs : list SlotValue) s :
  Z_in_Y s → Z_in_Y (fold_left (λ st v, (MaybeAdvance st v).1) vs s).
Proof.
  revert s. induction vs as [|v vs IH]; intros s Hinv; simpl; [done|].
  by apply IH, MaybeAdvance_Z_in_Y.
Qed.

Lemma fold_MaybeAdvance_N (vs : list SlotValue) s :
  N (fold_left (λ st v, (MaybeAdvance st v).1) vs s) = N s.
Proof.
  revert s. induction vs as [|v vs IH]; intros s; simpl; [done|].
  by rewrite IH, MaybeAdvance_N.
Qed.

Lemma SetDefault_extends s v : extends s (SetDefault s v).
Proof.
  unfold SetDefault, HasNomination. case_bool_decide as Hlen; [apply extends_refl|].
  repeat split; simpl; try done.
  destruct (X s); [apply prefix_nil | simpl in Hlen; lia].
Qed.

Lemma SetDefault_Z_in_Y s v : Z_in_Y s → Z_in_Y (SetDefault s v).
Proof. unfold SetDefault. by destruct (HasNomination s). Qed.

Lemma nom_Handle_extends s (node : string) (m : NominationMessage) :
  extends s (nom_Handle s node m).
Proof.
  unfold nom_Handle. cbv zeta.
  repeat (case_bool_decide; simpl; try apply extends_refl).
  all: eapply extends_trans; [|apply fold_MaybeAdvance_extends].
  all: repeat split; simpl; try done; apply fold_add_new_prefix.
Qed.

Lemma nom_Handle_Z_in_Y s (node : string) (m : NominationMessage) :
  Z_in_Y s → Z_in_Y (nom_Handle s node m).
Proof.
  intros Hinv. unfold nom_Handle. cbv zeta.
  repeat (case_bool_decide; simpl; try done).
  all: by apply fold_MaybeAdvance_Z_in_Y.
Qed.

Lemma nom_call_extends s (c : NominationCall) : extends s (nom_call s c).
Proof.
  destruct c; simpl;
    [apply SetDefault_extends | apply nom_Handle_extends | apply MaybeAdvance_extends].
Qed.

Lemma nom_call_Z_in_Y s (c : NominationCall) : Z_in_Y s → Z_in_Y (nom_call s c).
Proof.
  destruct c; simpl;
    [apply SetDefault_Z_in_Y | apply nom_Handle_Z_in_Y | apply MaybeAdvance_Z_in_Y].
Qed.

Lemma nom_run_extends (calls : list NominationCall) s :
  extends s (nom_run s calls).
Proof.
  revert s. induction calls as [|c calls IH]; intros s; simpl; [apply extends_refl|].
  eapply extends_trans; [apply nom_call_extends | apply IH].
Qed.

Lemma nom_run_Z_in_Y (calls : list NominationCall) s :
  Z_in_Y s → Z_in_Y (nom_run s calls).
Proof.
  revert s. induction calls as [|c calls IH]; intros s Hinv; simpl; [done|].
  by apply IH, nom_call_Z_in_Y.
Qed.

(** *** Stale and duplicate nomination messages *)

Definition oldLenX s (node : string) : nat :=
  from_option (λ o, length (nm_X o)) 0%nat (N s !! node).
Definition oldLenY s (node : string) : nat :=
  from_option (λ o, length (nm_Y o)) 0%nat (N s !! node).

Lemma nom_Handle_stale s (node : string) (m : NominationMessage) :
  (length (nm_X m) < oldLenX s node)%nat ∨
  (length (nm_Y m) < oldLenY s node)%nat ∨
  (length (nm_X m) = oldLenX s node ∧ length (nm_Y m) = oldLenY s node) →
  nom_Handle s node m = s.
Proof.
  unfold oldLenX, oldLenY, nom_Handle. cbv zeta. intros Hcase.
  repeat (case_bool_decide; simpl; try done). all: lia.
Qed.

Lemma nom_Handle_N s (node : string) (m : NominationMessage) :
  nom_Handle s node m = s ∨ N (nom_Handle s node m) = <[node := m]> (N s).
Proof.
  unfold nom_Handle. cbv zeta.
  repeat (case_bool_decide; simpl; try (by left)).
  all: right; by rewrite fold_MaybeAdvance_N.
Qed.

(** Handling the same message a second time changes nothing. *)
Lemma nom_Handle_twice s (node : string) (m : NominationMessage) :
  nom_Handle (nom_Handle s node m) node m = nom_Handle s node m.
Proof.
  destruct (nom_Handle_N s node m) as [Hsame|HN].
  - by rewrite !Hsame.
  - apply nom_Handle_stale. right. right.
    unfold oldLenX, oldLenY. by rewrite HN, lookup_insert_eq.
Qed.

(** C1 (amended).  Starting from a fresh nomination state, after any
    sequence of SetDefault, Handle and MaybeAdvance calls every value of Z is
    in Y; and from any state whatsoever, further calls only append to X, Y
    and Z, so that no value ever leaves any of them, and in particular a
    value that has entered Z stays in Z.  (Y need not be contained in X.) *)
Theorem nomination_sets_grow_and_Z_within_Y :
  (∀ (publicKey : string) (qs : QuorumSlice) (calls : list NominationCall),
     let s := nom_run (NewNominationState publicKey qs) calls in
     ∀ v, v ∈ Z_ s → v ∈ Y s) ∧
  (∀ s (calls : list NominationCall),
     let s' := nom_run s calls in
     X s `prefix_of` X s' ∧ Y s `prefix_of` Y s' ∧ Z_ s `prefix_of` Z_ s' ∧
     (∀ v, (v ∈ X s → v ∈ X s') ∧ (v ∈ Y s → v ∈ Y s') ∧ (v ∈ Z_ s → v ∈ Z_ s'))).
Proof.
  split.
  - intros publicKey qs calls. apply nom_run_Z_in_Y.
    intros v Hv. by apply elem_of_nil in Hv.
  - intros s calls. destruct (nom_run_extends calls s) as (HX & HY & HZ).
    cbv zeta. repeat split; try done.
    + destruct HX as [k ->]. intros ?. apply elem_of_app. by left.
    + destruct HY as [k ->]. intros ?. apply elem_of_app. by left.
    + destruct HZ as [k ->]. intros ?. apply elem_of_app. by left.
Qed.

(** *** PredictValue *)


End NominationFacts.

(** ** Balloting *)

Section BallotFacts.
Context {SlotValue : Type} `{EqDecision SlotValue}.
Context `{!BallotMessageMethods (SlotValue := SlotValue)}.
Implicit Types (s : BallotState (SlotValue := SlotValue)) (v : SlotValue) (k : Z).

Lemma Equal_true (a c : SlotValue) : Equal a c = true ↔ a = c.
Proof. unfold Equal. apply bool_decide_eq_true. Qed.

Lemma Equal_false (a c : SlotValue) : Equal a c = false ↔ a ≠ c.
Proof. unfold Equal. apply bool_decide_eq_false. Qed.

Lemma covers_true (o : option Ballot) k v :
  covers o k v = true ↔ ∃ bl, o = Some bl ∧ k ≤ n bl ∧ x bl = v.
Proof.
  unfold covers. destruct o as [bl|].
  - rewrite andb_true_iff, bool_decide_eq_true, Equal_true. split.
    + intros [? ?]. by exists bl.
    + intros (bl' & [= <-] & ? & ?). done.
  - split; [done | by intros (? & ? & _)].
Qed.

(** *** MaybeAcceptAsPrepared never reaches its fatal branch *)

Lemma MaybeAcceptAsPrepared_returns s k v :
  ∃ s', MaybeAcceptAsPrepared s k v = Returns s'.
Proof.
  unfold MaybeAcceptAsPrepared.
  destruct (negb (bool_decide (phase s = Prepare))); [by eexists|].
  destruct (bool_decide (k = 0)); [by eexists|].
  destruct (covers (p s) k v) eqn:Hcov; [by eexists|].
  destruct (covers (pPrime s) k v); [by eexists|].
  destruct (from_option (λ pp, bool_decide (k ≤ n pp)) false (pPrime s));
    [by eexists|].
  destruct (negb (MeetsQuorum s _) && negb (BlockedBy (bs_D s) _)); [by eexists|].
  cbv zeta.
  match goal with
  | |- context [if ?c then abort s else s] => set (s1 := if c then abort s else s)
  end.
  assert (p s1 = p s) as Hp by (subst s1; by case_match).
  rewrite Hp. destruct (p s) as [pb|] eqn:Hps; [|by eexists].
  destruct (Equal (x pb) v) eqn:Hx.
  - case_bool_decide as Hle; [|by eexists].
    exfalso. simpl in Hcov. rewrite Hx, andb_true_r in Hcov.
    by apply bool_decide_eq_false in Hcov.
  - destruct (bool_decide (n pb ≤ k)); by eexists.
Qed.

Lemma accept_as_prepared_eq s k v :
  MaybeAcceptAsPrepared s k v = Returns (accept_as_prepared s k v).
Proof.
  unfold accept_as_prepared.
  by destruct (MaybeAcceptAsPrepared_returns s k v) as [s' ->].
Qed.

(** *** The order of the phases *)

Definition phase_rank (ph : Phase) : nat :=
  match ph with
  | Prepare => 0
  | Confirm => 1
  | Externalize => 2
  end.

Definition phase_le (a c : Phase) : Prop := (phase_rank a ≤ phase_rank c)%nat.

Lemma phase_le_refl (a : Phase) : phase_le a a.
Proof. unfold phase_le. lia. Qed.

Lemma phase_le_trans (a c d : Phase) : phase_le a c → phase_le c d → phase_le a d.
Proof. unfold phase_le. lia. Qed.

(** *** What each operation leaves alone *)

(** The fields that only Handle itself writes. *)
Definition same_identity s s' : Prop :=
  M s' = M s ∧ bs_publicKey s' = bs_publicKey s ∧ bs_D s' = bs_D s.

Lemma accept_as_prepared_unfold s k v :
  accept_as_prepared s k v = s ∨
  (phase s = Prepare ∧ k ≠ 0 ∧ covers (p s) k v = false ∧
   from_option (λ pp, bool_decide (k ≤ n pp)) false (pPrime s) = false ∧
   ∃ s1, (s1 = s ∨ s1 = abort s) ∧
     accept_as_prepared s k v =
       match p s with
       | None => set_p s1 (Some {| n := k; x := v |})
       | Some pb =>
           if Equal (x pb) v then set_p s1 (Some {| n := k; x := x pb |})
           else if bool_decide (n pb ≤ k)
           then set_p (set_pPrime s1 (p s)) (Some {| n := k; x := v |})
           else set_pPrime s1 (Some {| n := k; x := v |})
       end).
Proof.
  pose proof (accept_as_prepared_eq s k v) as Heq.
  unfold MaybeAcceptAsPrepared in Heq.
  destruct (bool_decide (phase s = Prepare)) eqn:Hph; simpl in Heq;
    [|left; congruence].
  destruct (bool_decide (k = 0)) eqn:Hk; [left; congruence|].
  destruct (covers (p s) k v) eqn:Hcov; [left; congruence|].
  destruct (covers (pPrime s) k v); [left; congruence|].
  destruct (from_option (λ pp, bool_decide (k ≤ n pp)) false (pPrime s))
    eqn:Hold; [left; congruence|].
  destruct (negb (MeetsQuorum s _) && negb (BlockedBy (bs_D s) _));
    [left; congruence|].
  right. apply bool_decide_eq_true in Hph. apply bool_decide_eq_false in Hk.
  repeat (split; [done|]).
  cbv zeta in Heq. revert Heq.
  match goal with
  | |- context [if ?c then abort s else s] => set (s1 := if c then abort s else s)
  end.
  assert (p s1 = p s) as Hp by (subst s1; by case_match).
  assert (s1 = s ∨ s1 = abort s) as Hs1 by (subst s1; case_match; auto).
  rewrite !Hp. intros Heq. exists s1. split; [done|].
  destruct (p s) as [pb|]; [|congruence].
  destruct (Equal (x pb) v); [|destruct (bool_decide (n pb ≤ k)); congruence].
  destruct (bool_decide (k ≤ n pb)); congruence.
Qed.

Lemma accept_as_prepared_frame s k v :
  let s' := accept_as_prepared s k v in
  phase s' = phase s ∧ z s' = z s ∧ same_identity s s' ∧
  ((b s' = b s ∧ cn s' = cn s ∧ hn s' = hn s) ∨
   (phase s = Prepare ∧ b s' = None ∧ cn s' = 0 ∧ hn s' = 0)).
Proof.
  cbv zeta. destruct (accept_as_prepared_unfold s k v)
    as [->|(Hph & _ & _ & _ & s1 & Hs1 & ->)].
  { unfold same_identity. tauto. }
  assert (phase s1 = phase s ∧ z s1 = z s ∧ same_identity s s1 ∧
          ((b s1 = b s ∧ cn s1 = cn s ∧ hn s1 = hn s) ∨
           (b s1 = None ∧ cn s1 = 0 ∧ hn s1 = 0))) as (H1 & H2 & H3 & H4).
  { unfold same_identity. destruct Hs1 as [->| ->]; simpl; tauto. }
  unfold same_identity in *.
  destruct (p s) as [pb|]; [destruct (Equal (x pb) v);
    [|destruct (bool_decide (n pb ≤ k))]|]; simpl; tauto.
Qed.

Lemma MaybeConfirmAsPrepared_frame s k v :
  let s' := MaybeConfirmAsPrepared s k v in
  phase s' = phase s ∧ p s' = p s ∧ pPrime s' = pPrime s ∧ same_identity s s' ∧
  (s' = s ∨ phase s = Prepare).
Proof.
  cbv zeta. unfold MaybeConfirmAsPrepared, same_identity.
  case_bool_decide as Hph; simpl; [|tauto].
  repeat (case_match; simpl; try tauto).
Qed.

Lemma MaybeAcceptAsCommitted_frame s k v :
  let s' := MaybeAcceptAsCommitted s k v in
  p s' = p s ∧ pPrime s' = pPrime s ∧ same_identity s s' ∧
  (s' = s ∨ (phase s ≠ Externalize ∧ phase s' = Confirm)).
Proof.
  cbv zeta. unfold MaybeAcceptAsCommitted, same_identity.
  case_bool_decide as Hph; simpl; [tauto|].
  repeat (case_match; simpl; try tauto).
Qed.

Lemma MaybeConfirmAsCommitted_frame s k v :
  let s' := MaybeConfirmAsCommitted s k v in
  b s' = b s ∧ z s' = z s ∧ p s' = p s ∧ pPrime s' = pPrime s ∧
  same_identity s s' ∧
  (s' = s ∨ (phase s ≠ Prepare ∧ phase s' = Externalize)).
Proof.
  cbv zeta. unfold MaybeConfirmAsCommitted, same_identity.
  case_bool_decide as Hph; simpl; [tauto|].
  destruct (phase s) eqn:Hphase; [done| |];
    repeat (case_match; simpl; try tauto); try discriminate.
  all: rewrite ?Hphase; auto 10.
Qed.

Lemma MaybeNextBallot_frame s :
  let s' := (MaybeNextBallot s).1 in
  phase s' = phase s ∧ p s' = p s ∧ pPrime s' = pPrime s ∧
  cn s' = cn s ∧ hn s' = hn s ∧ z s' = z s ∧ same_identity s s' ∧
  (b s' = b s ∨
   ∃ bl, b s = Some bl ∧ b s' = Some {| n := int_succ (n bl); x := x bl |}).
Proof.
  cbv zeta. unfold MaybeNextBallot, same_identity.
  destruct (z s) eqn:Hz, (b s) as [bl|] eqn:Hb; simpl; try tauto.
  case_match; simpl; [tauto|]. repeat (split; [done|]). right. by exists bl.
Qed.

(** *** Invariants carried through Investigate and Handle *)

(** [I] is kept by each of the operations that Handle is made of. *)
Definition kept_by_operations (I : BallotState → Prop) : Prop :=
  (∀ s k v, I s → I (accept_as_prepared s k v)) ∧
  (∀ s k v, I s → I (MaybeConfirmAsPrepared s k v)) ∧
  (∀ s k v, I s → I (MaybeAcceptAsCommitted s k v)) ∧
  (∀ s k v, I s → I (MaybeConfirmAsCommitted s k v)) ∧
  (∀ s, I s → I (MaybeNextBallot s).1).

Section Kept.
Variable I : BallotState (SlotValue := SlotValue) → Prop.
Hypothesis HI : kept_by_operations I.
Hypothesis HM : ∀ s msgs, I s → I (set_M s msgs).

Lemma Investigate_kept s k v : I s → I (Investigate s k v).
Proof.
  destruct HI as (H1 & H2 & H3 & H4 & _). intros Hs. unfold Investigate.
  by apply H4, H3, H2, H1.
Qed.

Lemma investigate_range_kept (fuel : nat) :
  ∀ s (i hi : Z) v, I s → I (investigate_range fuel s i hi v).1.
Proof.
  induction fuel as [|fuel IH]; intros s i hi v Hs; simpl;
    case_bool_decide; simpl; try done.
  by apply IH, Investigate_kept.
Qed.

Lemma investigate_message_kept (fuel : nat) s (message : BallotMessage) :
  I s → I (investigate_message fuel s message).1.
Proof.
  intros Hs. destruct message as [m|m|m]; simpl.
  - by do 3 apply Investigate_kept.
  - by apply Investigate_kept.
  - by apply investigate_range_kept.
Qed.

Lemma handle_loop_kept (fuel : nat) :
  ∀ s (message : BallotMessage), I s → I (handle_loop fuel s message).1.
Proof.
  induction fuel as [|fuel IH]; intros s message Hs; [done|].
  cbn [handle_loop].
  pose proof (investigate_message_kept (S fuel) s message Hs) as H1.
  destruct (investigate_message (S fuel) s message) as [s1 finished].
  destruct finished; [|done].
  destruct HI as (_ & _ & _ & _ & Hnext).
  pose proof (Hnext s1 H1) as H2.
  destruct (MaybeNextBallot s1) as [s2 bumped]. destruct bumped; [|done].
  by apply IH.
Qed.

Lemma bs_Handle_kept (fuel : nat) s (node : string) (message : BallotMessage) :
  I s → I (bs_Handle fuel s node message).1.
Proof.
  intros Hs. unfold bs_Handle. destruct (is_stale s node message); [done|].
  by apply handle_loop_kept, HM.
Qed.

Lemma bs_call_kept s (c : BallotCall) : I s → I (bs_call s c).
Proof.
  intros Hs. pose proof HI as (H1 & H2 & H3 & H4 & H5).
  destruct c; simpl; auto using Investigate_kept, bs_Handle_kept.
Qed.

Lemma bs_run_kept (calls : list BallotCall) : ∀ s, I s → I (bs_run s calls).
Proof.
  induction calls as [|c calls IH]; intros s Hs; simpl; [done|].
  by apply IH, bs_call_kept.
Qed.
End Kept.

(** *** C3: the phase *)

Definition not_before (ph : Phase) s : Prop := phase_le ph (phase s).

Lemma not_before_kept (ph : Phase) : kept_by_operations (not_before ph).
Proof.
  unfold kept_by_operations, not_before. repeat split.
  - intros s k v Hs. by destruct (accept_as_prepared_frame s k v) as (-> & _).
  - intros s k v Hs. by destruct (MaybeConfirmAsPrepared_frame s k v) as (-> & _).
  - intros s k v Hs.
    destruct (MaybeAcceptAsCommitted_frame s k v) as (_ & _ & _ & [->|[Hne ->]]);
      [done|].
    eapply phase_le_trans; [exact Hs|]. unfold phase_le.
    destruct (phase s); simpl; [lia | lia | done].
  - intros s k v Hs.
    destruct (MaybeConfirmAsCommitted_frame s k v)
      as (_ & _ & _ & _ & _ & [->|[Hne ->]]); [done|].
    unfold phase_le. destruct ph; simpl; lia.
  - intros s Hs. by destruct (MaybeNextBallot_frame s) as (-> & _).
Qed.

Lemma confirm_abort_eq s : set_cn (set_hn (set_b s None) 0) 0 = abort s.
Proof. reflexivity. Qed.

(** C3.  Whatever calls are made on a ballot state (Handle among them, for
    any number of rounds of its loops), the phase never moves backward in the
    order Prepare, Confirm, Externalize, and no single operation moves it
    forward by more than one step.  MaybeAcceptAsPrepared and
    MaybeConfirmAsPrepared never change the phase and change the state in the
    Prepare phase only; the abort they perform sets b to nil and cn and hn to
    0 and touches nothing else. *)
Theorem phase_only_advances :
  (∀ s (calls : list BallotCall), phase_le (phase s) (phase (bs_run s calls))) ∧
  (∀ s k v,
     (phase_rank (phase (MaybeAcceptAsCommitted s k v)) ≤ S (phase_rank (phase s)))%nat ∧
     (phase_rank (phase (MaybeConfirmAsCommitted s k v)) ≤ S (phase_rank (phase s)))%nat ∧
     phase (MaybeNextBallot s).1 = phase s) ∧
  (∀ s k v,
     phase (accept_as_prepared s k v) = phase s ∧
     phase (MaybeConfirmAsPrepared s k v) = phase s ∧
     (accept_as_prepared s k v ≠ s → phase s = Prepare) ∧
     (MaybeConfirmAsPrepared s k v ≠ s → phase s = Prepare) ∧
     ((b (accept_as_prepared s k v) = b s ∧ cn (accept_as_prepared s k v) = cn s
       ∧ hn (accept_as_prepared s k v) = hn s) ∨
      (phase s = Prepare ∧ b (accept_as_prepared s k v) = None
       ∧ cn (accept_as_prepared s k v) = 0 ∧ hn (accept_as_prepared s k v) = 0))) ∧
  (∀ s, phase (abort s) = phase s ∧ b (abort s) = None ∧
        cn (abort s) = 0 ∧ hn (abort s) = 0 ∧
        p (abort s) = p s ∧ pPrime (abort s) = pPrime s ∧ z (abort s) = z s ∧
        M (abort s) = M s ∧ bs_publicKey (abort s) = bs_publicKey s ∧
        bs_D (abort s) = bs_D s).
Proof.
  split; [|split; [|split]].
  - intros s calls. apply (bs_run_kept (not_before (phase s))).
    + apply not_before_kept.
    + done.
    + apply phase_le_refl.
  - intros s k v. split; [|split].
    + destruct (MaybeAcceptAsCommitted_frame s k v)
        as (_ & _ & _ & [->|[Hne ->]]); [lia|].
      destruct (phase s); simpl; lia.
    + destruct (MaybeConfirmAsCommitted_frame s k v)
        as (_ & _ & _ & _ & _ & [->|[Hne ->]]); [lia|].
      destruct (phase s); simpl; [done | lia | lia].
    + by destruct (MaybeNextBallot_frame s) as (-> & _).
  - intros s k v.
    destruct (accept_as_prepared_frame s k v) as (Hph & _ & _ & Hb).
    destruct (MaybeConfirmAsPrepared_frame s k v) as (Hph' & _ & _ & _ & Hc).
    repeat split; try done.
    + intros Hne. by destruct (accept_as_prepared_unfold s k v) as [?|[? _]].
    + intros Hne. by destruct Hc.
  - intros s. by repeat split.
Qed.

(** *** C4: the two recorded prepared ballots *)

Definition prepared_pair_ok s : Prop :=
  (p s = None → pPrime s = None) ∧
  ∀ bp bp', p s = Some bp → pPrime s = Some bp' →
    x bp ≠ x bp' ∧ n bp' ≤ n bp.

Lemma prepared_pair_ok_ext s s' :
  p s' = p s → pPrime s' = pPrime s → prepared_pair_ok s → prepared_pair_ok s'.
Proof. unfold prepared_pair_ok. by intros -> ->. Qed.

Lemma accept_as_prepared_pair_ok s k v :
  prepared_pair_ok s → prepared_pair_ok (accept_as_prepared s k v).
Proof.
  intros [Hnone Hpair].
  destruct (accept_as_prepared_unfold s k v)
    as [->|(_ & _ & Hcov & Hold & s1 & Hs1 & ->)]; [done|].
  assert (p s1 = p s ∧ pPrime s1 = pPrime s) as [Hp Hpp]
    by (destruct Hs1 as [->| ->]; done).
  destruct (p s) as [pb|] eqn:Hps.
  - destruct (Equal (x pb) v) eqn:Hx; [|case_bool_decide as Hle].
    + (* the same value at a higher number *)
      apply Equal_true in Hx. simpl in Hcov. rewrite andb_false_iff in Hcov.
      destruct Hcov as [Hcov|Hcov]; [|apply Equal_false in Hcov; done].
      apply bool_decide_eq_false in Hcov.
      split; simpl; [done|]. rewrite Hpp. intros bp bp' [= <-] Hbp'. simpl.
      destruct (Hpair pb bp' eq_refl Hbp'). split; [done | lia].
    + (* a different value, not below p: p moves down to p' *)
      apply Equal_false in Hx. split; simpl; [done|].
      intros bp bp' [= <-] [= <-]. simpl. split; [congruence | done].
    + (* a different value below p: it becomes p' *)
      apply Equal_false in Hx. split; simpl; [by rewrite Hp|].
      rewrite Hp. intros bp bp' [= <-] [= <-]. simpl. split; [done | lia].
  - split; simpl; [done|]. rewrite Hpp, (Hnone eq_refl). done.
Qed.

Lemma prepared_pair_ok_kept : kept_by_operations prepared_pair_ok.
Proof.
  unfold kept_by_operations. split; [|split; [|split; [|split]]].
  - exact accept_as_prepared_pair_ok.
  - intros s k v. destruct (MaybeConfirmAsPrepared_frame s k v) as (_ & ? & ? & _).
    by apply prepared_pair_ok_ext.
  - intros s k v. destruct (MaybeAcceptAsCommitted_frame s k v) as (? & ? & _).
    by apply prepared_pair_ok_ext.
  - intros s k v.
    destruct (MaybeConfirmAsCommitted_frame s k v) as (_ & _ & ? & ? & _).
    by apply prepared_pair_ok_ext.
  - intros s. destruct (MaybeNextBallot_frame s) as (_ & ? & ? & _).
    by apply prepared_pair_ok_ext.
Qed.

(** C4 (amended).  In every state reached from a fresh ballot state,
    whenever p and p' are both non-nil their values differ and the number of
    p is at least the number of p' (the two numbers may be equal, and the
    values are not compared); p' is nil whenever p is.
    MaybeAcceptAsPrepared preserves this. *)
Theorem prepared_ballots_differ_and_p_not_below :
  (∀ (publicKey : string) (qs : QuorumSlice) (calls : list BallotCall),
     let s := bs_run (NewBallotState publicKey qs) calls in
     (p s = None → pPrime s = None) ∧
     ∀ bp bp', p s = Some bp → pPrime s = Some bp' →
       x bp ≠ x bp' ∧ n bp' ≤ n bp) ∧
  (∀ s k v, prepared_pair_ok s → prepared_pair_ok (accept_as_prepared s k v)).
Proof.
  split; [|exact accept_as_prepared_pair_ok].
  intros publicKey qs calls.
  apply (bs_run_kept prepared_pair_ok prepared_pair_ok_kept); [done|].
  split; [done|]. intros bp bp' Hbp. discriminate Hbp.
Qed.

(** *** C6: z and the value of b *)

Definition z_agrees s : Prop := ∀ bl, b s = Some bl → z s = Some (x bl).

Lemma z_agrees_kept : kept_by_operations z_agrees.
Proof.
  unfold kept_by_operations, z_agrees. split; [|split; [|split; [|split]]].
  - intros s k v Hs bl.
    destruct (accept_as_prepared_frame s k v)
      as (_ & -> & _ & [(-> & _)|(_ & -> & _)]); [apply Hs | done].
  - intros s k v Hs bl. unfold MaybeConfirmAsPrepared.
    repeat (case_match; simpl in *; try (by apply Hs); try congruence;
            try (by intros [= <-])).
  - intros s k v Hs bl. unfold MaybeAcceptAsCommitted.
    repeat (case_match; simpl in *; try (by apply Hs); try congruence;
            try (by intros [= <-])).
  - intros s k v Hs bl.
    destruct (MaybeConfirmAsCommitted_frame s k v) as (-> & -> & _). apply Hs.
  - intros s Hs bl.
    destruct (MaybeNextBallot_frame s)
      as (_ & _ & _ & _ & _ & -> & _ & [->|(bl0 & Hb & ->)]); [apply Hs|].
    intros [= <-]. simpl. by apply Hs.
Qed.

(** C6.  In every state reached from a fresh ballot state, whenever b is
    non-nil z is non-nil too and points to the value of b; and each call
    (MaybeAcceptAsPrepared, MaybeConfirmAsPrepared, MaybeAcceptAsCommitted,
    MaybeConfirmAsCommitted, MaybeNextBallot, Investigate, Handle) keeps
    that agreement. *)
Theorem z_agrees_with_b :
  (∀ (publicKey : string) (qs : QuorumSlice) (calls : list BallotCall),
     let s := bs_run (NewBallotState publicKey qs) calls in
     ∀ bl, b s = Some bl → z s = Some (x bl)) ∧
  (∀ s (c : BallotCall), z_agrees s → z_agrees (bs_call s c)).
Proof.
  split.
  - intros publicKey qs calls.
    apply (bs_run_kept z_agrees z_agrees_kept); [done|]. intros bl Hbl.
    discriminate Hbl.
  - intros s c. by apply (bs_call_kept z_agrees z_agrees_kept).
Qed.

(** *** C10: the number 0 *)

Definition numbers_nonzero s : Prop :=
  (∀ bp, p s = Some bp → n bp ≠ 0) ∧ (∀ bp', pPrime s = Some bp' → n bp' ≠ 0).

Lemma numbers_nonzero_ext s s' :
  p s' = p s → pPrime s' = pPrime s → numbers_nonzero s → numbers_nonzero s'.
Proof. unfold numbers_nonzero. by intros -> ->. Qed.

Lemma numbers_nonzero_kept : kept_by_operations numbers_nonzero.
Proof.
  unfold kept_by_operations. split; [|split; [|split; [|split]]].
  - intros s k v [Hp Hpp].
    destruct (accept_as_prepared_unfold s k v)
      as [->|(_ & Hk & _ & _ & s1 & Hs1 & ->)]; [done|].
    assert (p s1 = p s ∧ pPrime s1 = pPrime s) as [Hp1 Hpp1]
      by (destruct Hs1 as [->| ->]; done).
    destruct (p s) as [pb|] eqn:Hps;
      [destruct (Equal (x pb) v); [|case_bool_decide]|];
      split; simpl; rewrite ?Hp1, ?Hpp1;
      try (intros ? [= <-]; simpl; auto); auto.
  - intros s k v. destruct (MaybeConfirmAsPrepared_frame s k v) as (_ & ? & ? & _).
    by apply numbers_nonzero_ext.
  - intros s k v. destruct (MaybeAcceptAsCommitted_frame s k v) as (? & ? & _).
    by apply numbers_nonzero_ext.
  - intros s k v.
    destruct (MaybeConfirmAsCommitted_frame s k v) as (_ & _ & ? & ? & _).
    by apply numbers_nonzero_ext.
  - intros s. destruct (MaybeNextBallot_frame s) as (_ & ? & ? & _).
    by apply numbers_nonzero_ext.
Qed.

(** C10.  In any phase and for any value x, MaybeAcceptAsPrepared(0, x)
    returns with the state exactly as it was; and in no state reached from a
    fresh ballot state does p or p' hold a ballot with number 0. *)
Theorem number_zero_is_never_prepared :
  (∀ s v, MaybeAcceptAsPrepared s 0 v = Returns s) ∧
  (∀ (publicKey : string) (qs : QuorumSlice) (calls : list BallotCall),
     let s := bs_run (NewBallotState publicKey qs) calls in
     (∀ bp, p s = Some bp → n bp ≠ 0) ∧ (∀ bp', pPrime s = Some bp' → n bp' ≠ 0)).
Proof.
  split.
  - intros s v. unfold MaybeAcceptAsPrepared.
    by destruct (negb (bool_decide (phase s = Prepare))).
  - intros publicKey qs calls.
    apply (bs_run_kept numbers_nonzero numbers_nonzero_kept); [done|].
    split; intros bp Hbp; discriminate Hbp.
Qed.

(** *** C8: the bump of the ballot number *)

Lemma int_succ_in_range (i : Z) : int_min ≤ i < int_max → int_succ i = i + 1.
Proof.
  unfold int_succ, int_wrap, int_min, int_max. intros Hi.
  rewrite Z.mod_small; lia.
Qed.

(** C8.  MaybeNextBallot returns false and changes nothing when z or b is
    nil.  Otherwise, with higher the peers whose latest message has a ballot
    number above b.n: if higher blocks the slice D, b.n is incremented (by
    exactly one, short of the largest int, where Go's ++ wraps) and the call
    returns true; if not, it returns false and changes nothing.  No field
    other than b.n is ever modified. *)
Theorem MaybeNextBallot_bumps_by_one s :
  (z s = None ∨ b s = None → MaybeNextBallot s = (s, false)) ∧
  (∀ bl zv, b s = Some bl → z s = Some zv →
     let higher :=
       peers_where (λ m, bool_decide (n bl < BallotNumber m)) (M s) in
     (∀ u, u ∈ higher ↔ ∃ m, M s !! u = Some m ∧ n bl < BallotNumber m) ∧
     (BlockedBy (bs_D s) higher = true →
        MaybeNextBallot s =
          (set_b s (Some {| n := int_succ (n bl); x := x bl |}), true) ∧
        (int_min ≤ n bl < int_max → int_succ (n bl) = n bl + 1)) ∧
     (BlockedBy (bs_D s) higher = false → MaybeNextBallot s = (s, false))) ∧
  (let s' := (MaybeNextBallot s).1 in
   phase s' = phase s ∧ p s' = p s ∧ pPrime s' = pPrime s ∧
   cn s' = cn s ∧ hn s' = hn s ∧ z s' = z s ∧ M s' = M s ∧
   bs_publicKey s' = bs_publicKey s ∧ bs_D s' = bs_D s ∧
   (x <$> b s') = (x <$> b s)).
Proof.
  split; [|split].
  - unfold MaybeNextBallot. intros [->| ->]; [done|]. by destruct (z s).
  - intros bl zv Hb Hz. cbv zeta. split; [|split].
    + intros u. rewrite elem_of_peers_where.
      by setoid_rewrite bool_decide_eq_true.
    + intros Hblocked. split; [|apply int_succ_in_range].
      unfold MaybeNextBallot. by rewrite Hz, Hb, Hblocked.
    + intros Hfree. unfold MaybeNextBallot. by rewrite Hz, Hb, Hfree.
  - cbv zeta.
    destruct (MaybeNextBallot_frame s)
      as (? & ? & ? & ? & ? & ? & (? & ? & ?) & Hb).
    repeat split; try done.
    destruct Hb as [->|(bl & -> & ->)]; done.
Qed.

(** *** C5: stale and duplicate messages *)

Lemma messages_kept (msgs : gmap string BallotMessage) :
  kept_by_operations (λ s, M s = msgs).
Proof.
  unfold kept_by_operations. split; [|split; [|split; [|split]]].
  - intros s k v <-. by destruct (accept_as_prepared_frame s k v) as (_ & _ & (-> & _) & _).
  - intros s k v <-.
    by destruct (MaybeConfirmAsPrepared_frame s k v) as (_ & _ & _ & (-> & _) & _).
  - intros s k v <-.
    by destruct (MaybeAcceptAsCommitted_frame s k v) as (_ & _ & (-> & _) & _).
  - intros s k v <-.
    by destruct (MaybeConfirmAsCommitted_frame s k v)
      as (_ & _ & _ & _ & (-> & _) & _).
  - intros s <-.
    by destruct (MaybeNextBallot_frame s) as (_ & _ & _ & _ & _ & _ & (-> & _) & _).
Qed.

Lemma bs_Handle_stale (fuel : nat) s (node : string) (m old : BallotMessage) :
  M s !! node = Some old → 0 ≤ Compare old m → bs_Handle fuel s node m = (s, true).
Proof.
  intros Hold Hcmp. unfold bs_Handle, is_stale. rewrite Hold.
  by rewrite bool_decide_eq_true_2.
Qed.

(** After Handle, either nothing has changed or the message is the one
    stored for its sender. *)
Lemma bs_Handle_stored (fuel : nat) s (node : string) (m : BallotMessage) :
  bs_Handle fuel s node m = (s, true) ∨
  M (bs_Handle fuel s node m).1 !! node = Some m.
Proof.
  unfold bs_Handle. destruct (is_stale s node m); [by left|]. right.
  rewrite (handle_loop_kept _ (messages_kept (<[node := m]> (M s)))); [|done].
  apply lookup_insert_eq.
Qed.

Lemma bs_Handle_twice (fuel fuel' : nat) s (node : string) (m : BallotMessage) :
  0 ≤ Compare m m →
  (bs_Handle fuel s node m).2 = true →
  bs_Handle fuel' (bs_Handle fuel s node m).1 node m =
    ((bs_Handle fuel s node m).1, true).
Proof.
  intros Hrefl Hdone. destruct (bs_Handle_stored fuel s node m) as [Hsame|Hm].
  - rewrite Hsame. simpl. unfold bs_Handle in *.
    destruct (is_stale s node m) eqn:Hstale; [done|].
    (* the message was handled and left the state as it was: it is stored *)
    assert (M (handle_loop fuel (set_M s (<[node:=m]> (M s))) m).1 !! node = Some m)
      as Hstored.
    { rewrite (handle_loop_kept _ (messages_kept (<[node := m]> (M s)))); [|done].
      apply lookup_insert_eq. }
    rewrite Hsame in Hstored. simpl in Hstored.
    unfold is_stale in Hstale. rewrite Hstored in Hstale.
    by rewrite bool_decide_eq_true_2 in Hstale.
  - by apply (bs_Handle_stale fuel' _ node m m).
Qed.

(** C5.  A nomination message whose X list or Y list is shorter than that
    of the message stored for its sender, or whose two lists are as long as
    the stored ones (none stored counting as length 0), leaves the
    nomination state as it is.  A ballot message leaves the ballot state as
    it is when a message [old] is stored for its sender and
    Compare(old, message) ≥ 0.  Handling the last message of any sequence a
    second time leaves the state as the first handling left it (for ballot
    messages: when the first handling ran to its end and Compare finds the
    message not below itself). *)
Theorem stale_and_duplicate_messages_change_nothing :
  (∀ (ns : NominationState (SlotValue := SlotValue)) (node : string)
     (m : NominationMessage),
     (length (nm_X m) < oldLenX ns node)%nat ∨
     (length (nm_Y m) < oldLenY ns node)%nat ∨
     (length (nm_X m) = oldLenX ns node ∧ length (nm_Y m) = oldLenY ns node) →
     nom_Handle ns node m = ns) ∧
  (∀ (fuel : nat) s (node : string) (m old : BallotMessage),
     M s !! node = Some old → 0 ≤ Compare old m →
     bs_Handle fuel s node m = (s, true)) ∧
  (∀ (ns : NominationState (SlotValue := SlotValue))
     (calls : list NominationCall) (node : string) (m : NominationMessage),
     nom_run ns (calls ++ [CallHandle node m; CallHandle node m]) =
     nom_run ns (calls ++ [CallHandle node m])) ∧
  (∀ s (calls : list BallotCall) (fuel fuel' : nat) (node : string)
     (m : BallotMessage),
     0 ≤ Compare m m →
     let s1 := bs_run s calls in
     (bs_Handle fuel s1 node m).2 = true →
     bs_Handle fuel' (bs_Handle fuel s1 node m).1 node m =
       ((bs_Handle fuel s1 node m).1, true)).
Proof.
  split; [|split; [|split]].
  - intros ns node m. apply nom_Handle_stale.
  - intros fuel s node m old. apply bs_Handle_stale.
  - intros ns calls node m. unfold nom_run. rewrite !fold_left_app. simpl.
    apply nom_Handle_twice.
  - intros s calls fuel fuel' node m Hrefl. cbv zeta. by apply bs_Handle_twice.
Qed.

End BallotFacts.


(** ** The slot driver *)

Section DriverFacts.
Context {SlotValue : Type}.
Variable MakeSlotValue : string → SlotValue.
Variable zeroSlotValue : SlotValue.

(** With a ballot state in place, OutgoingMessages returns the nomination
    message, and the ballot message after it exactly when the ballot state
    has one. *)
Lemma OutgoingMessages_with_ballot_state (sb : StateBuilder) (clock : string)
  (ns : NominationState) (bs : BallotState) :
  nState sb = Some ns → bState sb = Some bs →
  ∃ ns' nomination,
    nomination = MsgNomination {| nm_I := slot sb; nm_X := X ns'; nm_Y := Y ns';
                                  nm_D := sb_D sb |} ∧
    HasNomination ns' = true ∧
    (HasNomination ns = true → ns' = ns) ∧
    if HasMessage bs
    then ∃ m, bs_Message zeroSlotValue bs (slot sb) (sb_D sb) = Returns m ∧
              OutgoingMessages MakeSlotValue zeroSlotValue sb clock =
                Returns ([nomination; m], set_nState sb ns')
    else OutgoingMessages MakeSlotValue zeroSlotValue sb clock =
           Returns ([nomination], set_nState sb ns').
Proof.
  intros Hns Hbs. unfold OutgoingMessages. rewrite Hns. cbv zeta. simpl.
  rewrite Hbs.
  match goal with
  | |- context [set_nState sb ?st] => exists st
  end.
  eexists. split; [reflexivity|]. split; [|split].
  - destruct (HasNomination ns) eqn:Hhas; simpl; [done|].
    unfold SetDefault. by rewrite Hhas.
  - by intros ->.
  - destruct (HasMessage bs) eqn:Hmsg; [|done].
    unfold HasMessage in Hmsg. apply bool_decide_eq_true in Hmsg as [bl Hbl].
    unfold bs_Message. rewrite Hbl. by eexists.
Qed.

(** C2, on the code as it is.  NewStateBuilder leaves the ballot state nil,
    and OutgoingMessages on the driver it returns panics on that nil
    pointer, once the nomination message has been built. *)
Theorem OutgoingMessages_on_new_driver_panics (now : Z) (publicKey : string)
  (members : list string) (threshold : Z) (clock : string) :
  bState (NewStateBuilder (SlotValue := SlotValue) now publicKey members threshold)
    = None ∧
  OutgoingMessages MakeSlotValue zeroSlotValue
    (NewStateBuilder now publicKey members threshold) clock
    = Panic nil_dereference.
Proof. split; reflexivity. Qed.

End DriverFacts.

(** ** The operation codec *)

Section OperationFacts.
Context {OpType Struct : Type} `{EqDecision OpType}.
Variable OperationType : OpType → Struct → string.
Variable json_marshal : OpType → Struct → option string.
Variable json_envelope : string → string → string.
Variable json_parse_envelope : string → option (string * string).
Variable json_unmarshal : OpType → string → option (option Struct).

(** Every entry of the registry was put there by RegisterOperationType: the
    type stored under a name has an operation with that name. *)
Definition registry_ok (registry : gmap string OpType) : Prop :=
  ∀ name t, registry !! name = Some t → ∃ v, OperationType t v = name.

(** The contract of the interface: OperationType() "returns a unique short
    string mapping to the operation type". *)
Definition type_strings_unique : Prop :=
  ∀ t1 v1 t2 v2, OperationType t1 v1 = OperationType t2 v2 → t1 = t2.

Lemma registry_ok_empty : registry_ok ∅.
Proof. intros name t Hlookup. by rewrite lookup_empty in Hlookup. Qed.

Lemma RegisterOperationType_ok (registry registry' : gmap string OpType)
  (t : OpType) (v : Struct) :
  registry_ok registry →
  RegisterOperationType OperationType registry t v = Returns registry' →
  registry_ok registry' ∧ registry' !! OperationType t v = Some t.
Proof.
  intros Hok. unfold RegisterOperationType.
  destruct (registry !! OperationType t v) eqn:Hfree; [done|].
  intros [= <-]. split; [|apply lookup_insert_eq].
  intros name t'. rewrite lookup_insert. case_decide as Hname.
  - intros [= <-]. by exists v.
  - apply Hok.
Qed.



End OperationFacts.


(** * Concrete runs

    Slot values are strings here, and the methods of the ballot messages
    are given bodies, so that the functions above can be run. *)

Module Run.

(** Modelled from the spec: the bodies of the methods of BallotMessage are
    not among the sources.  A message votes for or accepts what the ballots
    it carries cover ("same x, n ≤ existing.n"): a Prepare message votes to
    prepare what its b covers, accepts as prepared what its p or p' covers,
    and votes to commit b.x on its non-empty range [c, h]; a Confirm message
    accepts the commit of X on [c, h]; an Externalize message accepts it from
    c on. *)
Definition covered (num : Z) (val : string) (k : Z) (v : string) : bool :=
  bool_decide (k ≤ num) && bool_decide (val = v).

(** Modelled from the spec: accept-as-prepared, from p and p' of a Prepare
    message; a Confirm message carries p.n with its value, an Externalize
    message stands for its value at every number. *)
Definition acceptAsPrepared (m : BallotMessage) (k : Z) (v : string) : bool :=
  match m with
  | MPrepare m => covered (Pn m) (Px m) k v || covered (Ppn m) (Ppx m) k v
  | MConfirm m => covered (cm_Pn m) (cm_X m) k v
  | MExternalize m => bool_decide (em_X m = v)
  end.

(** Modelled from the spec: vote-to-prepare, from b of a Prepare message. *)
Definition voteToPrepare (m : BallotMessage) (k : Z) (v : string) : bool :=
  match m with
  | MPrepare m => covered (Bn m) (Bx m) k v
  | MConfirm m => bool_decide (cm_X m = v)
  | MExternalize m => bool_decide (em_X m = v)
  end.

(** Modelled from the spec: accept-committed, from the range [c, h] of a
    Confirm message and from c on for an Externalize message. *)
Definition acceptAsCommitted (m : BallotMessage) (k : Z) (v : string) : bool :=
  match m with
  | MPrepare _ => false
  | MConfirm m =>
      bool_decide (cm_X m = v) && bool_decide (cm_Cn m ≤ k) && bool_decide (k ≤ cm_Hn m)
  | MExternalize m => bool_decide (em_X m = v) && bool_decide (em_Cn m ≤ k)
  end.

(** Modelled from the spec: vote-to-commit, from the non-empty range [c, h]
    of a Prepare message ("0 < c ≤ n ≤ h" and the value of b). *)
Definition voteToCommit (m : BallotMessage) (k : Z) (v : string) : bool :=
  match m with
  | MPrepare m =>
      negb (bool_decide (pm_Cn m = 0)) && bool_decide (pm_Cn m ≤ k)
      && bool_decide (k ≤ pm_Hn m) && bool_decide (Bx m = v)
  | MConfirm m => bool_decide (cm_X m = v) && bool_decide (cm_Cn m ≤ k)
  | MExternalize m => bool_decide (em_X m = v) && bool_decide (em_Cn m ≤ k)
  end.

(** Modelled from the spec: the ballot number a message stands at. *)
Definition ballotNumber (m : BallotMessage (SlotValue := string)) : Z :=
  match m with
  | MPrepare m => Bn m
  | MConfirm m => cm_Hn m
  | MExternalize m => em_Hn m
  end.

Definition message_phase (m : BallotMessage (SlotValue := string)) : Phase :=
  match m with
  | MPrepare _ => Prepare
  | MConfirm _ => Confirm
  | MExternalize _ => Externalize
  end.

(** The ballots a message carries, in the order they are compared. *)
Definition carried (m : BallotMessage (SlotValue := string)) : list (Z * string) :=
  match m with
  | MPrepare m => [(Bn m, Bx m); (Pn m, Px m); (Ppn m, Ppx m);
                   (pm_Cn m, ""); (pm_Hn m, "")]
  | MConfirm m => [(cm_Hn m, cm_X m); (cm_Pn m, ""); (cm_Cn m, "")]
  | MExternalize m => [(em_Hn m, em_X m); (em_Cn m, "")]
  end.

Definition compare_ballot (a c : Z * string) : comparison :=
  match a.1 ?= c.1 with
  | Eq => String.compare a.2 c.2
  | other => other
  end.

Fixpoint compare_lex (l1 l2 : list (Z * string)) : comparison :=
  match l1, l2 with
  | [], [] => Eq
  | [], _ :: _ => Lt
  | _ :: _, [] => Gt
  | a :: l1', c :: l2' =>
      match compare_ballot a c with
      | Eq => compare_lex l1' l2'
      | other => other
      end
  end.

Definition comparison_to_int (c : comparison) : Z :=
  match c with
  | Lt => -1
  | Eq => 0
  | Gt => 1
  end.

(** Modelled from the spec: the function Compare is not among the sources.
    "Compare uses the message total order: by type priority (Prepare <
    Confirm < Externalize), then by the ballots they carry,
    lexicographically." *)
Definition compare (m1 m2 : BallotMessage (SlotValue := string)) : Z :=
  comparison_to_int
    match Nat.compare (phase_rank (message_phase m1)) (phase_rank (message_phase m2)) with
    | Eq => compare_lex (carried m1) (carried m2)
    | other => other
    end.

#[export] Instance methods : BallotMessageMethods (SlotValue := string) :=
  {| AcceptAsPrepared := acceptAsPrepared;
     VoteToPrepare := voteToPrepare;
     AcceptAsCommitted := acceptAsCommitted;
     VoteToCommit := voteToCommit;
     BallotNumber := ballotNumber;
     Compare := compare |}.

(** The canonical order on these slot values. *)
Definition value_lt (a c : string) : Prop := String.compare a c = Lt.


(** *** A nomination run: one peer, whose acceptance blocks the slice *)

Definition only_A : QuorumSlice := {| Members := ["A"]; Threshold := 1 |}.

Definition accepted_v : NominationMessage :=
  {| nm_I := 1; nm_X := []; nm_Y := ["v"]; nm_D := only_A |}.

Definition after_accepted_v : NominationState :=
  nom_run (NewNominationState "me" only_A) [CallHandle "A" accepted_v].

(** *** A ballot run: two peers, each of which blocks the slice *)

Definition both_AB : QuorumSlice := {| Members := ["A"; "B"]; Threshold := 2 |}.

Definition prepared (v : string) : BallotMessage :=
  MPrepare {| pm_T := Prepare; pm_I := 1; Bn := 1; Bx := v; Pn := 1; Px := v;
              Ppn := 0; Ppx := ""; pm_Cn := 0; pm_Hn := 0; pm_D := both_AB |}.

Definition after_b_then_a : BallotState :=
  bs_run (NewBallotState "me" both_AB)
    [CallBallotHandle 1 "A" (prepared "b"); CallBallotHandle 1 "B" (prepared "a")].

(** *** A ballot state about to be bumped

    Peer A, who alone makes up the slice, has had (1, "a") confirmed as
    prepared, and its next message, with ballot number 3, has just been
    stored by Handle. *)

Definition prepared_by_A (num : Z) (v : string) : BallotMessage :=
  MPrepare {| pm_T := Prepare; pm_I := 1; Bn := num; Bx := v; Pn := num; Px := v;
              Ppn := 0; Ppx := ""; pm_Cn := 0; pm_Hn := 0; pm_D := only_A |}.

Definition working_on_1a : BallotState :=
  bs_run (NewBallotState "me" only_A)
    [CallBallotHandle 1 "A" (prepared_by_A 1 "a")].

Definition behind_A : BallotState :=
  set_M working_on_1a (<["A" := prepared_by_A 3 "a"]> (M working_on_1a)).

(** *** An operation type and a line-oriented stand-in for encoding/json

    The envelope is written as T:O, the struct as Number,Signer and a nil
    payload as null. *)

Inductive TestingType : Type := Testing.

#[export] Instance TestingType_eq_dec : EqDecision TestingType.
Proof. solve_decision. Defined.

Record TestingOperation : Type := mkTestingOperation {
  Number : Z;
  Signer : string
}.

Definition testing_OperationType (t : TestingType) (op : TestingOperation)
  : string := "Testing".

Definition comma : Ascii.ascii := Ascii.ascii_of_nat 44.
Definition colon : Ascii.ascii := Ascii.ascii_of_nat 58.

Fixpoint split_at (c : Ascii.ascii) (text : string) : option (string * string) :=
  match text with
  | EmptyString => None
  | String c' rest =>
      if Ascii.eqb c c' then Some (EmptyString, rest)
      else
        match split_at c rest with
        | Some (before, after) => Some (String c' before, after)
        | None => None
        end
  end.

Definition line_marshal (t : TestingType) (op : TestingOperation)
  : option string :=
  Some (NilZero.string_of_int (Z.to_int (Number op)) +:+ "," +:+ Signer op).

Definition line_unmarshal (t : TestingType) (raw : string)
  : option (option TestingOperation) :=
  if bool_decide (raw = "null") then Some None
  else
    match split_at comma raw with
    | Some (num, signer) =>
        match NilZero.int_of_string num with
        | Some i => Some (Some {| Number := Z.of_int i; Signer := signer |})
        | None => None
        end
    | None => None
    end.

Definition line_envelope (name raw : string) : string := name +:+ ":" +:+ raw.

Definition line_parse_envelope (encoded : string) : option (string * string) :=
  split_at colon encoded.

Definition testing_registry : gmap string TestingType := {["Testing" := Testing]}.

Definition five : TestingOperation := {| Number := 5; Signer := "bob" |}.

(** *** Where the code departs from the specification *)

Lemma after_accepted_v_lists :
  X after_accepted_v = [] ∧ Y after_accepted_v = ["v"] ∧ Z_ after_accepted_v = ["v"].
Proof. by vm_compute. Qed.

(** C1, as stated, fails: once peer A, who alone makes up the slice, has
    accepted "v" without voting for it, Handle puts "v" into Y (and Z) while
    X stays empty, so Y is not contained in X. *)
Lemma accepted_value_need_not_be_voted :
  ¬ ((∀ v : string, v ∈ Z_ after_accepted_v → v ∈ Y after_accepted_v) ∧
     (∀ v : string, v ∈ Y after_accepted_v → v ∈ X after_accepted_v)).
Proof.
  destruct after_accepted_v_lists as (HX & HY & _). intros [_ Hsub].
  specialize (Hsub "v"). rewrite HX, HY in Hsub.
  apply (not_elem_of_nil "v"), Hsub, list_elem_of_singleton. done.
Qed.


Lemma after_b_then_a_prepared :
  p after_b_then_a = Some {| n := 1; x := "a" |} ∧
  pPrime after_b_then_a = Some {| n := 1; x := "b" |}.
Proof. by vm_compute. Qed.

(** C4, as stated, fails: peer A reports (1, "b") as prepared, then peer B
    reports (1, "a"); each of them blocks the slice.  The second ballot has
    the same number as p, so it takes the place of p and (1, "b") moves to
    p', although (1, "a") is below (1, "b") in the order on ballots. *)
Lemma later_ballot_of_equal_number_becomes_p :
  ¬ (∀ bp bp' : Ballot,
       p after_b_then_a = Some bp → pPrime after_b_then_a = Some bp' →
       x bp ≠ x bp' ∧ ballot_lt value_lt bp' bp).
Proof.
  destruct after_b_then_a_prepared as [Hp Hpp]. intros Hclaim.
  destruct (Hclaim _ _ Hp Hpp) as [_ [Hlt|[_ Hlt]]]; simpl in Hlt.
  - lia.
  - vm_compute in Hlt. discriminate Hlt.
Qed.

(** *** The theorems at work on these runs *)

(** C1 on the nomination run: "v", which is in Z, is in Y. *)
Lemma confirmed_v_is_accepted : "v" ∈ Y after_accepted_v.
Proof.
  apply (proj1 (nomination_sets_grow_and_Z_within_Y (SlotValue := string))
           "me" only_A [CallHandle "A" accepted_v] "v").
  vm_compute. apply list_elem_of_here.
Defined.

(** C3 on the first message of the ballot run: it changes the state, which
    the theorem then places in the Prepare phase. *)
Lemma first_prepared_came_in_prepare :
  phase (NewBallotState (SlotValue := string) "me" both_AB) = Prepare.
Proof.
  pose (s := set_M (NewBallotState (SlotValue := string) "me" both_AB)
               {["A" := prepared "b"]}).
  apply (proj1 (proj2 (proj2
           (proj1 (proj2 (proj2 (phase_only_advances (SlotValue := string))))
              s 1 "b")))).
  vm_compute. discriminate.
Defined.

(** C4 on the ballot run: with p = (1, "a") and p' = (1, "b"), accepting
    (2, "c") as prepared keeps the pair in order. *)
Lemma pair_stays_in_order :
  prepared_pair_ok (accept_as_prepared after_b_then_a 2 "c").
Proof.
  apply (proj2 (prepared_ballots_differ_and_p_not_below (SlotValue := string))).
  destruct after_b_then_a_prepared as [Hp Hpp]. split.
  - rewrite Hp. discriminate.
  - rewrite Hp, Hpp. intros bp bp' [= <-] [= <-]. simpl. split; [discriminate | lia].
Defined.

(** C5 on the ballot run: the message of peer A, sent a second time, is
    dropped. *)
Lemma second_copy_is_dropped :
  let s := (bs_Handle 1 (NewBallotState "me" both_AB) "A" (prepared "b")).1 in
  bs_Handle 1 s "A" (prepared "b") = (s, true).
Proof.
  cbv zeta.
  apply (proj1 (proj2 (stale_and_duplicate_messages_change_nothing
                         (SlotValue := string)))
           1%nat _ "A" (prepared "b") (prepared "b")).
  - vm_compute. reflexivity.
  - vm_compute. discriminate.
Defined.

(** C6 on the state that works on (1, "a"): z points to "a". *)
Lemma z_of_working_on_1a : z working_on_1a = Some "a".
Proof.
  apply (proj1 (z_agrees_with_b (SlotValue := string)) "me" only_A
           [CallBallotHandle 1 "A" (prepared_by_A 1 "a")] {| n := 1; x := "a" |}).
  vm_compute. reflexivity.
Defined.


(** C8 on the state that is behind peer A: the ballot number goes from 1
    to 2. *)
Lemma behind_A_is_bumped :
  MaybeNextBallot behind_A =
    (set_b behind_A (Some {| n := int_succ 1; x := "a" |}), true) ∧
  int_succ 1 = 2.
Proof.
  pose proof (proj1 (proj2 (MaybeNextBallot_bumps_by_one behind_A))
                {| n := 1; x := "a" |} "a") as Hbump.
  cbv zeta in Hbump.
  assert (b behind_A = Some {| n := 1; x := "a" |}) as Hb
    by (vm_compute; reflexivity).
  assert (z behind_A = Some "a") as Hz by (vm_compute; reflexivity).
  destruct (Hbump Hb Hz) as (_ & Hblocked & _).
  destruct Hblocked as [Hcall Hone]; [vm_compute; reflexivity|].
  split; [exact Hcall|]. apply Hone. vm_compute. split; [discriminate | reflexivity].
Defined.


Lemma testing_strings_unique : type_strings_unique testing_OperationType.
Proof. intros t1 v1 t2 v2 _. by destruct t1, t2. Qed.


(** C10 on the ballot run: the number of p is not 0. *)
Lemma p_of_run_is_not_zero : n {| n := 1; x := "a" |} ≠ 0.
Proof.
  apply (proj1 (proj2 (number_zero_is_never_prepared (SlotValue := string))
                  "me" both_AB
                  [CallBallotHandle 1 "A" (prepared "b");
                   CallBallotHandle 1 "B" (prepared "a")])).
  vm_compute. reflexivity.
Defined.

End Run.

(** * Further properties of the nomination state *)

Section NominationMore.
Context {SlotValue : Type} `{EqDecision SlotValue}.
Implicit Types (s : NominationState (SlotValue := SlotValue)) (v w : SlotValue).

(** *** No value is listed twice *)

Definition no_repeats s : Prop := NoDup (X s) ∧ NoDup (Y s) ∧ NoDup (Z_ s).

Lemma NoDup_snoc_new (l : list SlotValue) v :
  NoDup l → HasSlotValue l v = false → NoDup (l ++ [v]).
Proof.
  intros Hl Hv. apply HasSlotValue_false in Hv. apply NoDup_app.
  split; [done|]. split; [|apply NoDup_singleton].
  intros w Hw Hin. apply list_elem_of_singleton in Hin. by subst w.
Qed.

Lemma add_new_NoDup (l : list SlotValue) v : NoDup l → NoDup (add_new l v).
Proof.
  intros Hl. unfold add_new. destruct (HasSlotValue l v) eqn:Hv; [done|].
  by apply NoDup_snoc_new.
Qed.

Lemma fold_add_new_NoDup (vs l : list SlotValue) :
  NoDup l → NoDup (fold_left add_new vs l).
Proof.
  revert l. induction vs as [|v vs IH]; intros l Hl; simpl; [done|].
  by apply IH, add_new_NoDup.
Qed.

Lemma MaybeAdvance_no_repeats s v : no_repeats s → no_repeats (MaybeAdvance s v).1.
Proof.
  intros (HX & HY & HZ). unfold MaybeAdvance.
  destruct (HasSlotValue (Z_ s) v) eqn:HinZ; [done|]. cbv zeta.
  destruct (MeetsQuorum s (nom_votedOrAccepted s v)
            || BlockedBy (ns_D s) (nom_accepted s v));
    destruct (HasSlotValue (Y s) v) eqn:HinY; simpl;
    match goal with
    | |- context [if ?c then _ else _] => destruct c
    end; simpl; repeat split; simpl; auto using NoDup_snoc_new.
Qed.

Lemma fold_MaybeAdvance_no_repeats (vs : list SlotValue) s :
  no_repeats s → no_repeats (fold_left (λ st v, (MaybeAdvance st v).1) vs s).
Proof.
  revert s. induction vs as [|v vs IH]; intros s Hs; simpl; [done|].
  by apply IH, MaybeAdvance_no_repeats.
Qed.

Lemma nom_call_no_repeats s (c : NominationCall) :
  no_repeats s → no_repeats (nom_call s c).
Proof.
  intros (HX & HY & HZ). destruct c as [v|node m|v]; simpl.
  - unfold SetDefault. destruct (HasNomination s); [done|].
    repeat split; simpl; try done. apply NoDup_singleton.
  - unfold nom_Handle. cbv zeta.
    repeat (case_bool_decide; simpl; try done).
    all: apply fold_MaybeAdvance_no_repeats; repeat split; simpl; try done.
    all: by apply fold_add_new_NoDup.
  - by apply MaybeAdvance_no_repeats.
Qed.

(** X1.  From a fresh nomination state on, whatever is called, none of the
    lists X, Y and Z ever holds a value twice. *)
Theorem nomination_lists_hold_no_value_twice (publicKey : string)
  (qs : QuorumSlice) (calls : list NominationCall) :
  let s := nom_run (SlotValue := SlotValue) (NewNominationState publicKey qs) calls in
  NoDup (X s) ∧ NoDup (Y s) ∧ NoDup (Z_ s).
Proof.
  cbv zeta. change (no_repeats (nom_run (NewNominationState publicKey qs) calls)).
  assert (no_repeats (NewNominationState (SlotValue := SlotValue) publicKey qs))
    as Hinit by (repeat split; apply NoDup_nil_2).
  revert Hinit. generalize (NewNominationState (SlotValue := SlotValue) publicKey qs).
  induction calls as [|c calls IH]; intros s Hs; simpl; [done|].
  by apply IH, nom_call_no_repeats.
Qed.

(** *** What MaybeAdvance reports *)

(** X2.  MaybeAdvance returns true exactly when it has changed the state, and
    then it has appended [v], and nothing else, to Y, to Z or to both; on a
    value that is already in Z it does nothing.  X, N and the identity of
    the node are never touched. *)
Theorem MaybeAdvance_reports_its_changes s v :
  let s' := (MaybeAdvance s v).1 in
  let changed := (MaybeAdvance s v).2 in
  (changed = false ↔ s' = s) ∧
  (Y s' = Y s ∨ ((v ∉ Y s) ∧ Y s' = Y s ++ [v])) ∧
  (Z_ s' = Z_ s ∨ ((v ∉ Z_ s) ∧ Z_ s' = Z_ s ++ [v])) ∧
  (v ∈ Z_ s → s' = s) ∧
  X s' = X s ∧ N s' = N s ∧ ns_publicKey s' = ns_publicKey s ∧ ns_D s' = ns_D s.
Proof.
  cbv zeta. unfold MaybeAdvance.
  destruct (HasSlotValue (Z_ s) v) eqn:HinZ.
  { simpl. repeat split; auto. }
  cbv zeta. apply HasSlotValue_false in HinZ.
  assert (∀ (l : list SlotValue) (t : NominationState (SlotValue := SlotValue)),
            Y t = l ++ [v] → Y s = l → t ≠ s) as HneY.
  { intros l t Ht Hl ->. rewrite Hl in Ht.
    apply (f_equal length) in Ht. rewrite length_app in Ht. simpl in Ht. lia. }
  assert (∀ (l : list SlotValue) (t : NominationState (SlotValue := SlotValue)),
            Z_ t = l ++ [v] → Z_ s = l → t ≠ s) as HneZ.
  { intros l t Ht Hl ->. rewrite Hl in Ht.
    apply (f_equal length) in Ht. rewrite length_app in Ht. simpl in Ht. lia. }
  destruct (MeetsQuorum s (nom_votedOrAccepted s v)
            || BlockedBy (ns_D s) (nom_accepted s v));
    destruct (HasSlotValue (Y s) v) eqn:HinY; simpl;
    match goal with
    | |- context [if ?c then _ else _] => destruct c
    end; simpl; try apply HasSlotValue_false in HinY.
  all: repeat split; simpl; auto; try discriminate; try done.
  all: try (intros Heq; exfalso; revert Heq;
            first [ by eapply HneZ | by eapply HneY ]).
Qed.

End NominationMore.

Section NominationDefaults.
Context {SlotValue : Type} `{EqDecision SlotValue}.
Implicit Types (s : NominationState (SlotValue := SlotValue)) (v w : SlotValue).

(** X3.  SetDefault makes the state able to nominate: afterwards HasNomination
    is true and PredictValue returns a value.  On an empty X it sets X to
    the default alone; on a non-empty X it changes nothing, so that of two
    defaults in a row the first one wins.  Y, Z and N are never touched. *)
Theorem SetDefault_gives_a_nomination
  (CombineSlice : list SlotValue → SlotValue) s v w :
  HasNomination (SetDefault s v) = true ∧
  (∃ r, PredictValue CombineSlice (SetDefault s v) = Returns r) ∧
  (X s = [] → X (SetDefault s v) = [v]) ∧
  (X s ≠ [] → SetDefault s v = s) ∧
  SetDefault (SetDefault s v) w = SetDefault s v ∧
  Y (SetDefault s v) = Y s ∧ Z_ (SetDefault s v) = Z_ s ∧
  N (SetDefault s v) = N s.
Proof.
  assert (HasNomination (SetDefault s v) = true) as Hhas.
  { unfold SetDefault. destruct (HasNomination s) eqn:Hs; [done|].
    unfold HasNomination. simpl. done. }
  split; [done|]. split; [|split; [|split; [|split]]].
  - revert Hhas. generalize (SetDefault s v). intros t Ht.
    unfold PredictValue, HasNomination in *.
    destruct (Z_ t), (Y t), (X t); simpl in *; try done; eauto.
  - intros HX. unfold SetDefault, HasNomination. by rewrite HX.
  - intros HX. unfold SetDefault, HasNomination.
    by destruct (X s).
  - unfold SetDefault at 1. by rewrite Hhas.
  - unfold SetDefault. by destruct (HasNomination s).
Qed.

(** *** What Handle stores and supports *)

Lemma elem_of_add_new (l : list SlotValue) v w :
  w ∈ add_new l v ↔ w ∈ l ∨ w = v.
Proof.
  unfold add_new. destruct (HasSlotValue l v) eqn:Hv.
  - apply HasSlotValue_true in Hv. split; [auto | intros [?| ->]; done].
  - rewrite elem_of_app, list_elem_of_singleton. done.
Qed.

Lemma elem_of_fold_add_new (vs l : list SlotValue) w :
  w ∈ fold_left add_new vs l ↔ w ∈ l ∨ w ∈ vs.
Proof.
  revert l. induction vs as [|v vs IH]; intros l; simpl.
  - split; [auto | intros [?|Hin]; [done | by apply elem_of_nil in Hin]].
  - rewrite IH, elem_of_add_new, elem_of_cons. tauto.
Qed.

(** The message is new for its sender: neither list is shorter than the
    stored one, and not both are as long. *)
Definition is_news s (node : string)
  (m : NominationMessage (SlotValue := SlotValue)) : Prop :=
  (oldLenX s node ≤ length (nm_X m))%nat ∧
  (oldLenY s node ≤ length (nm_Y m))%nat ∧
  ¬ (length (nm_X m) = oldLenX s node ∧ length (nm_Y m) = oldLenY s node).

Lemma MaybeAdvance_frame s v :
  ns_publicKey (MaybeAdvance s v).1 = ns_publicKey s ∧
  ns_D (MaybeAdvance s v).1 = ns_D s ∧
  X (MaybeAdvance s v).1 = X s ∧ N (MaybeAdvance s v).1 = N s.
Proof.
  unfold MaybeAdvance. destruct (HasSlotValue (Z_ s) v); [done|]. cbv zeta.
  destruct (_ && negb (HasSlotValue (Y s) v)); simpl;
    match goal with
    | |- context [if ?c then _ else _] => destruct c
    end; done.
Qed.

Lemma fold_MaybeAdvance_frame (vs : list SlotValue) s :
  let s' := fold_left (λ st v, (MaybeAdvance st v).1) vs s in
  ns_publicKey s' = ns_publicKey s ∧ ns_D s' = ns_D s ∧ X s' = X s ∧ N s' = N s.
Proof.
  cbv zeta. revert s. induction vs as [|v vs IH]; intros s; simpl; [done|].
  destruct (IH (MaybeAdvance s v).1) as (-> & -> & -> & ->).
  apply MaybeAdvance_frame.
Qed.

Lemma nom_Handle_effect s (node : string) (m : NominationMessage) :
  let s' := nom_Handle s node m in
  ns_publicKey s' = ns_publicKey s ∧ ns_D s' = ns_D s ∧
  (∀ other, other ≠ node → N s' !! other = N s !! other) ∧
  (is_news s node m →
     N s' = <[node := m]> (N s) ∧
     ∀ v, v ∈ X s' ↔ v ∈ X s ∨ v ∈ drop (oldLenX s node) (nm_X m)).
Proof.
  cbv zeta. unfold is_news, oldLenX, oldLenY, nom_Handle. cbv zeta.
  repeat (case_bool_decide; simpl).
  all: try (repeat split; try done; intros; lia).
  all: match goal with
       | |- context [fold_left (λ t v, (MaybeAdvance t v).1) ?vs ?s0] =>
           destruct (fold_MaybeAdvance_frame vs s0) as (-> & -> & -> & ->)
       end; simpl.
  all: repeat split; try done.
  all: try (intros other Hother; by rewrite lookup_insert_ne).
  all: try (by apply elem_of_fold_add_new).
  all: try (intros [?|?]; by apply elem_of_fold_add_new; auto).
Qed.

(** X4.  Handle never changes the name or the slice of the node, nor what is
    stored for the other peers.  When the message is new for its sender it
    becomes the message stored for that sender, every value of X is kept,
    the values the message adds to the sender's X are all in X afterwards,
    and nothing else is: a value of X afterwards was in X before or is one
    of those. *)
Theorem nom_Handle_stores_and_supports s (node : string) (m : NominationMessage) :
  let s' := nom_Handle s node m in
  ns_publicKey s' = ns_publicKey s ∧ ns_D s' = ns_D s ∧
  (∀ other, other ≠ node → N s' !! other = N s !! other) ∧
  (is_news s node m →
     N s' = <[node := m]> (N s) ∧
     ∀ v, v ∈ X s' ↔ v ∈ X s ∨ v ∈ drop (oldLenX s node) (nm_X m)).
Proof. apply nom_Handle_effect. Qed.

(** *** The slice of a node *)

(** X5.  QuorumSlice answers with the node's own slice for the node's own name,
    whatever is stored under that name; for another name it answers with
    the slice of the message stored for it, and with nothing when none is
    stored.  After Handle has stored a message that is new for a peer, the
    peer's slice is the one this message carries. *)
Theorem nomination_slice_lookup s (node : string) (m : NominationMessage) :
  ns_QuorumSlice s (ns_publicKey s) = Some (ns_D s) ∧
  (node ≠ ns_publicKey s →
     ns_QuorumSlice s node = nm_D <$> N s !! node ∧
     (N s !! node = None → ns_QuorumSlice s node = None) ∧
     (is_news s node m →
        ns_QuorumSlice (nom_Handle s node m) node = Some (nm_D m))) ∧
  ns_QuorumSlice (nom_Handle s node m) (ns_publicKey s) = Some (ns_D s).
Proof.
  destruct (nom_Handle_effect s node m) as (Hkey & HD & _ & Hnews).
  cbv zeta in *. unfold ns_QuorumSlice. split; [|split].
  - by rewrite bool_decide_eq_true_2.
  - intros Hne. rewrite bool_decide_eq_false_2 by done. split; [done|]. split.
    + by intros ->.
    + intros Hm. destruct (Hnews Hm) as [-> _]. rewrite Hkey.
      rewrite bool_decide_eq_false_2 by done. by rewrite lookup_insert_eq.
  - rewrite Hkey, HD. by rewrite bool_decide_eq_true_2.
Qed.

End NominationDefaults.

(** * Further properties of the ballot state *)

Section BallotMore.
Context {SlotValue : Type} `{EqDecision SlotValue}.
Context `{!BallotMessageMethods (SlotValue := SlotValue)}.
Implicit Types (s : BallotState (SlotValue := SlotValue)) (v : SlotValue) (k : Z).

(** *** The range and the working ballot *)

(** The range is in order, and a state without a working ballot is in the
    Prepare phase with the empty range. *)
Definition range_ok s : Prop :=
  cn s ≤ hn s ∧ (b s = None → phase s = Prepare ∧ cn s = 0 ∧ hn s = 0).

Lemma has_value_Some (o : option Ballot) v :
  has_value o v = true → ∃ bl, o = Some bl ∧ x bl = v.
Proof.
  destruct o as [bl|]; simpl; [|done]. intros Hx. exists bl.
  split; [done|]. by apply Equal_true.
Qed.

Lemma range_ok_kept : kept_by_operations range_ok.
Proof.
  unfold kept_by_operations, range_ok. split; [|split; [|split; [|split]]].
  - intros s k v [Hle Hnil].
    destruct (accept_as_prepared_frame s k v)
      as (-> & _ & _ & [(-> & -> & ->)|(HP & -> & -> & ->)]); [done|].
    by rewrite HP.
  - intros s k v [Hle Hnil]. unfold MaybeConfirmAsPrepared.
    case_bool_decide as Hph; simpl; [|done].
    case_bool_decide as Hk; [done|].
    repeat (case_match; simpl in *; try done).
    all: split; [lia | intros; congruence].
  - intros s k v [Hle Hnil]. unfold MaybeAcceptAsCommitted.
    case_bool_decide; [done|].
    repeat (case_match; simpl in *; try done).
    all: repeat case_bool_decide; simpl in *.
    all: split; [lia | intros Hb; try congruence].
    all: rewrite Hb in *; simpl in *; congruence.
  - intros s k v [Hle Hnil]. unfold MaybeConfirmAsCommitted.
    case_bool_decide; [done|].
    repeat (case_match; simpl in *; try done).
    all: repeat case_bool_decide; simpl in *.
    all: split; [lia | intros Hb; try congruence].
    all: rewrite Hb in *; simpl in *; congruence.
  - intros s [Hle Hnil].
    destruct (MaybeNextBallot_frame s)
      as (-> & _ & _ & -> & -> & _ & _ & [->|(bl & Hb & ->)]); [done|].
    split; [done | discriminate].
Qed.

(** X6.  From a fresh ballot state on, whatever is called: cn ≤ hn; a state
    without a working ballot is in the Prepare phase with cn = hn = 0; and
    so outside the Prepare phase there is always a working ballot
    (HasMessage is true). *)
Theorem range_in_order_and_ballot_outside_prepare (publicKey : string)
  (qs : QuorumSlice) (calls : list BallotCall) :
  let s := bs_run (NewBallotState publicKey qs) calls in
  cn s ≤ hn s ∧
  (b s = None → phase s = Prepare ∧ cn s = 0 ∧ hn s = 0) ∧
  (phase s ≠ Prepare → HasMessage s = true).
Proof.
  cbv zeta.
  assert (range_ok (bs_run (NewBallotState publicKey qs) calls)) as [Hle Hnil].
  { apply (bs_run_kept range_ok range_ok_kept); [done|]. by split. }
  repeat split; try done; try (by apply Hnil).
  intros Hph. unfold HasMessage. apply bool_decide_eq_true.
  destruct (b _) eqn:Hb; [by eexists|]. by destruct (Hnil eq_refl).
Qed.

(** *** After the Prepare phase *)

Definition left_prepare (p0 pp0 : option Ballot) s : Prop :=
  phase s ≠ Prepare ∧ p s = p0 ∧ pPrime s = pp0.

Lemma left_prepare_kept (p0 pp0 : option Ballot) :
  kept_by_operations (left_prepare p0 pp0).
Proof.
  unfold kept_by_operations, left_prepare. split; [|split; [|split; [|split]]].
  - intros s k v (Hph & Hp & Hpp).
    by destruct (accept_as_prepared_unfold s k v) as [->|[? _]].
  - intros s k v (Hph & Hp & Hpp).
    by destruct (MaybeConfirmAsPrepared_frame s k v) as (_ & _ & _ & _ & [->|?]).
  - intros s k v (Hph & Hp & Hpp).
    destruct (MaybeAcceptAsCommitted_frame s k v) as (-> & -> & _ & [->|[_ ->]]);
      done.
  - intros s k v (Hph & Hp & Hpp).
    destruct (MaybeConfirmAsCommitted_frame s k v)
      as (_ & _ & -> & -> & _ & [->|[_ ->]]); done.
  - intros s (Hph & Hp & Hpp).
    by destruct (MaybeNextBallot_frame s) as (-> & -> & -> & _).
Qed.

(** X7.  Once a ballot state has left the Prepare phase it never returns to it,
    and p and p' stay as they are, whatever is called: neither
    MaybeAcceptAsPrepared nor MaybeConfirmAsPrepared has any effect any
    more. *)
Theorem prepared_ballots_are_frozen_after_prepare s (calls : list BallotCall)
  (k : Z) (v : SlotValue) :
  phase s ≠ Prepare →
  let s' := bs_run s calls in
  phase s' ≠ Prepare ∧ p s' = p s ∧ pPrime s' = pPrime s ∧
  accept_as_prepared s' k v = s' ∧ MaybeConfirmAsPrepared s' k v = s'.
Proof.
  intros Hph. cbv zeta.
  assert (left_prepare (p s) (pPrime s) (bs_run s calls)) as (Hph' & Hp & Hpp).
  { by apply (bs_run_kept _ (left_prepare_kept (p s) (pPrime s))). }
  repeat split; try done.
  - by destruct (accept_as_prepared_unfold (bs_run s calls) k v) as [->|[? _]].
  - by destruct (MaybeConfirmAsPrepared_frame (bs_run s calls) k v)
      as (_ & _ & _ & _ & [->|?]).
Qed.

(** *** The Externalize phase *)

Definition externalized_from s0 s : Prop :=
  phase s = Externalize ∧ (x <$> b s) = (x <$> b s0) ∧ z s = z s0 ∧
  cn s ≤ cn s0 ∧ hn s0 ≤ hn s.

Lemma externalized_from_kept s0 : kept_by_operations (externalized_from s0).
Proof.
  unfold kept_by_operations, externalized_from.
  split; [|split; [|split; [|split]]].
  - intros s k v (Hph & ?).
    destruct (accept_as_prepared_unfold s k v) as [->|[HP _]]; [done|].
    rewrite HP in Hph. discriminate.
  - intros s k v (Hph & ?).
    destruct (MaybeConfirmAsPrepared_frame s k v) as (_ & _ & _ & _ & [->|HP]);
      [done|]. rewrite HP in Hph. discriminate.
  - intros s k v (Hph & ?).
    by destruct (MaybeAcceptAsCommitted_frame s k v) as (_ & _ & _ & [->|[? _]]).
  - intros s k v (Hph & Hx & Hz & Hc & Hh).
    destruct (MaybeConfirmAsCommitted_frame s k v) as (Hb & Hz' & _).
    rewrite Hb, Hz'. unfold MaybeConfirmAsCommitted. rewrite Hph. simpl.
    repeat (case_match; simpl; try done).
    all: repeat case_bool_decide; simpl in *; repeat split; try done; lia.
  - intros s (Hph & Hx & Hz & Hc & Hh).
    destruct (MaybeNextBallot_frame s)
      as (-> & _ & _ & -> & -> & -> & _ & [->|(bl & Hb & ->)]); [done|].
    repeat split; try done. by rewrite <- Hx, Hb.
Qed.

(** X8.  Externalize is final: once a ballot state is in the Externalize phase,
    whatever is called, it stays there, the value of its ballot and z never
    change, and the range [cn, hn] only widens. *)
Theorem externalized_value_is_final s (calls : list BallotCall) :
  phase s = Externalize →
  let s' := bs_run s calls in
  phase s' = Externalize ∧ (x <$> b s') = (x <$> b s) ∧ z s' = z s ∧
  cn s' ≤ cn s ∧ hn s ≤ hn s'.
Proof.
  intros Hph. cbv zeta.
  apply (bs_run_kept _ (externalized_from_kept s)); [done|].
  unfold externalized_from. repeat split; try done; lia.
Qed.

End BallotMore.

Section BallotHandleMore.
Context {SlotValue : Type} `{EqDecision SlotValue}.
Context `{!BallotMessageMethods (SlotValue := SlotValue)}.
Implicit Types (s : BallotState (SlotValue := SlotValue)) (v : SlotValue) (k : Z).

(** *** What Handle stores *)

Lemma identity_kept (key : string) (d : QuorumSlice) :
  kept_by_operations (λ s, bs_publicKey s = key ∧ bs_D s = d).
Proof.
  unfold kept_by_operations. split; [|split; [|split; [|split]]].
  - intros s k v [<- <-].
    by destruct (accept_as_prepared_frame s k v) as (_ & _ & (_ & -> & ->) & _).
  - intros s k v [<- <-].
    by destruct (MaybeConfirmAsPrepared_frame s k v)
      as (_ & _ & _ & (_ & -> & ->) & _).
  - intros s k v [<- <-].
    by destruct (MaybeAcceptAsCommitted_frame s k v) as (_ & _ & (_ & -> & ->) & _).
  - intros s k v [<- <-].
    by destruct (MaybeConfirmAsCommitted_frame s k v)
      as (_ & _ & _ & _ & (_ & -> & ->) & _).
  - intros s [<- <-].
    by destruct (MaybeNextBallot_frame s)
      as (_ & _ & _ & _ & _ & _ & (_ & -> & ->) & _).
Qed.

(** X9.  Handle never changes the name or the slice of the node.  A stale
    message changes nothing at all.  Any other message becomes the one stored
    for its sender, the messages stored for the other peers stay as they
    are, and from then on the sender's slice is the one this message carries
    (the node's own slice being the answer for its own name in any case).
    This holds for any number of rounds of the loops of Handle. *)
Theorem bs_Handle_stores_the_message (fuel : nat) s (node : string)
  (message : BallotMessage) :
  let s' := (bs_Handle fuel s node message).1 in
  bs_publicKey s' = bs_publicKey s ∧ bs_D s' = bs_D s ∧
  bs_QuorumSlice s' (bs_publicKey s) = Some (bs_D s) ∧
  (is_stale s node message = true → bs_Handle fuel s node message = (s, true)) ∧
  (is_stale s node message = false →
     M s' = <[node := message]> (M s) ∧
     (node ≠ bs_publicKey s →
        bs_QuorumSlice s' node = Some (bm_QuorumSlice message)) ∧
     (∀ other, other ≠ node → bs_QuorumSlice s' other = bs_QuorumSlice s other)).
Proof.
  cbv zeta.
  assert (bs_publicKey (bs_Handle fuel s node message).1 = bs_publicKey s
          ∧ bs_D (bs_Handle fuel s node message).1 = bs_D s) as [Hkey HD].
  { by apply (bs_Handle_kept _ (identity_kept (bs_publicKey s) (bs_D s))). }
  split; [done|]. split; [done|]. split; [|split].
  - unfold bs_QuorumSlice. rewrite Hkey, HD. by rewrite bool_decide_eq_true_2.
  - intros Hstale. unfold bs_Handle. by rewrite Hstale.
  - intros Hfresh.
    assert (M (bs_Handle fuel s node message).1 = <[node := message]> (M s)) as HM.
    { unfold bs_Handle. rewrite Hfresh.
      by rewrite (handle_loop_kept _ (messages_kept (<[node := message]> (M s)))). }
    split; [done|]. unfold bs_QuorumSlice. rewrite Hkey, HD, HM. split.
    + intros Hne. rewrite bool_decide_eq_false_2 by done.
      by rewrite lookup_insert_eq.
    + intros other Hother. by rewrite lookup_insert_ne.
Qed.

(** *** When Handle returns *)

Lemma investigate_range_more_fuel (fuel : nat) :
  ∀ s (i hi : Z) v s' (fuel' : nat),
    investigate_range fuel s i hi v = (s', true) → (fuel ≤ fuel')%nat →
    investigate_range fuel' s i hi v = (s', true).
Proof.
  induction fuel as [|fuel IH]; intros s i hi v s' fuel' Hrun Hle.
  - simpl in Hrun. destruct fuel'; simpl; case_bool_decide; congruence.
  - destruct fuel' as [|fuel']; [lia|]. simpl in *.
    case_bool_decide; [|done]. apply IH; [done | lia].
Qed.

Lemma investigate_message_more_fuel (fuel fuel' : nat) s
  (message : BallotMessage) s' :
  investigate_message fuel s message = (s', true) → (fuel ≤ fuel')%nat →
  investigate_message fuel' s message = (s', true).
Proof.
  destruct message as [m|m|m]; simpl; try done.
  apply investigate_range_more_fuel.
Qed.

Lemma handle_loop_more_fuel (fuel : nat) :
  ∀ s (message : BallotMessage) s' (fuel' : nat),
    handle_loop fuel s message = (s', true) → (fuel ≤ fuel')%nat →
    handle_loop fuel' s message = (s', true).
Proof.
  induction fuel as [|fuel IH]; intros s message s' fuel' Hrun Hle; [done|].
  destruct fuel' as [|fuel']; [lia|]. cbn [handle_loop] in *.
  destruct (investigate_message (S fuel) s message) as [s1 finished] eqn:Hinv.
  destruct finished; [|done].
  rewrite (investigate_message_more_fuel (S fuel) (S fuel') s message s1 Hinv)
    by lia.
  destruct (MaybeNextBallot s1) as [s2 bumped]. destruct bumped; [|done].
  apply IH; [done | lia].
Qed.

Lemma handle_loop_settled (fuel : nat) :
  ∀ s (message : BallotMessage) s',
    handle_loop fuel s message = (s', true) → MaybeNextBallot s' = (s', false).
Proof.
  induction fuel as [|fuel IH]; intros s message s' Hrun; [done|].
  cbn [handle_loop] in Hrun.
  destruct (investigate_message (S fuel) s message) as [s1 finished].
  destruct finished; [|done].
  destruct (MaybeNextBallot s1) as [s2 bumped] eqn:Hnext.
  destruct bumped; [by apply (IH s2 message)|].
  injection Hrun as <-. 
  assert (s2 = s1) as ->; [|done].
  unfold MaybeNextBallot in Hnext.
  destruct (z s1), (b s1); try (by injection Hnext as <-).
  by destruct (negb (BlockedBy (bs_D s1) _)); injection Hnext as <-.
Qed.

(** X10.  When Handle has returned, it returns the same state for any larger
    number of rounds allowed to its loops; and unless the message was stale,
    the ballot number has caught up: MaybeNextBallot finds nothing more to
    bump in the state returned. *)
Theorem bs_Handle_returns_a_settled_state (fuel : nat) s (node : string)
  (message : BallotMessage) s' :
  bs_Handle fuel s node message = (s', true) →
  (∀ fuel', (fuel ≤ fuel')%nat → bs_Handle fuel' s node message = (s', true)) ∧
  (is_stale s node message = false → MaybeNextBallot s' = (s', false)).
Proof.
  unfold bs_Handle. destruct (is_stale s node message); intros Hrun.
  - split; [done | discriminate].
  - split.
    + intros fuel' Hle. by apply (handle_loop_more_fuel fuel).
    + intros _. by apply (handle_loop_settled fuel _ message s' Hrun).
Qed.

End BallotHandleMore.

(** * The messages a node sends, and the dispatch of those it receives *)

Section DriverMore.
Context {SlotValue : Type} `{EqDecision SlotValue}.
Context `{!BallotMessageMethods (SlotValue := SlotValue)}.
Variable MakeSlotValue : string → SlotValue.
Variable zeroSlotValue : SlotValue.

(** The phase a ballot message is written in. *)
Definition message_type (m : BallotMessage (SlotValue := SlotValue)) : Phase :=
  match m with
  | MPrepare m => pm_T m
  | MConfirm m => cm_T m
  | MExternalize m => em_T m
  end.

Definition set_bState (sb : StateBuilder (SlotValue := SlotValue))
  (bs : BallotState) : StateBuilder :=
  {| slot := slot sb; start := start sb; values := values sb;
     nState := nState sb; bState := Some bs;
     sb_D := sb_D sb; sb_publicKey := sb_publicKey sb |}.



Definition is_ballot_message (message : Message (SlotValue := SlotValue)) : bool :=
  match message with
  | MsgBallot _ => true
  | _ => false
  end.

(** *** Message *)

(** X11.  In every state reached from a fresh ballot state, Message panics when
    there is no working ballot and otherwise returns a ballot message
    written in the phase of the state and carrying the slot, the slice, cn
    and hn it is given.  A Prepare message carries b, and p and p' with
    number 0 standing for nil: since no recorded ballot has number 0, p is
    nil exactly when Pn is 0, and p' exactly when Ppn is 0, so that b, p and
    p' can be read back from the message.  Confirm and Externalize messages
    carry the value of b.  Outside the Prepare phase Message never
    panics. *)
Theorem Message_matches_the_state (publicKey : string) (qs : QuorumSlice)
  (calls : list BallotCall) (i : Z) (d : QuorumSlice) :
  let s := bs_run (NewBallotState publicKey qs) calls in
  (b s = None → bs_Message zeroSlotValue s i d = Panic "coding error") ∧
  (phase s ≠ Prepare → ∃ m, bs_Message zeroSlotValue s i d = Returns m) ∧
  (∀ bl, b s = Some bl →
     ∃ m, bs_Message zeroSlotValue s i d = Returns (MsgBallot m) ∧
          message_type m = phase s ∧ bm_QuorumSlice m = d ∧
          match m with
          | MPrepare pm =>
              pm_I pm = i ∧ bl = {| n := Bn pm; x := Bx pm |} ∧
              pm_Cn pm = cn s ∧ pm_Hn pm = hn s ∧
              (Pn pm = 0 ↔ p s = None) ∧ (Ppn pm = 0 ↔ pPrime s = None) ∧
              (∀ bp, p s = Some bp → bp = {| n := Pn pm; x := Px pm |}) ∧
              (∀ bp, pPrime s = Some bp → bp = {| n := Ppn pm; x := Ppx pm |})
          | MConfirm cm =>
              cm_I cm = i ∧ cm_X cm = x bl ∧ cm_Cn cm = cn s ∧ cm_Hn cm = hn s ∧
              cm_Pn cm = from_option n 0 (p s)
          | MExternalize em =>
              em_I em = i ∧ em_X em = x bl ∧ em_Cn em = cn s ∧ em_Hn em = hn s
          end).
Proof.
  cbv zeta. set (s := bs_run (NewBallotState publicKey qs) calls).
  assert (numbers_nonzero s) as [Hp Hpp].
  { apply (bs_run_kept numbers_nonzero numbers_nonzero_kept); [done|].
    split; intros bp Hbp; discriminate Hbp. }
  assert (range_ok s) as [_ Hnil].
  { apply (bs_run_kept range_ok range_ok_kept); [done|]. by split. }
  split; [|split].
  - intros Hb. unfold bs_Message. by rewrite Hb.
  - intros Hph. unfold bs_Message. destruct (b s) as [bl|] eqn:Hb; [by eexists|].
    by destruct (Hnil eq_refl).
  - intros bl Hb. unfold bs_Message. rewrite Hb. eexists. split; [reflexivity|].
    destruct (phase s) eqn:Hph; simpl; repeat split; try done.
    + by destruct bl.
    + intros HPn. destruct (p s) as [bp|] eqn:Hbp; [|done].
      by destruct (Hp bp eq_refl).
    + by intros ->.
    + intros HPn. destruct (pPrime s) as [bp|] eqn:Hbp; [|done].
      by destruct (Hpp bp eq_refl).
    + by intros ->.
    + intros [n0 x0] Hbp. by rewrite Hbp.
    + intros [n0 x0] Hbp. by rewrite Hbp.
Qed.

(** *** OutgoingMessages, once there is a ballot state *)

(** X12.  On a driver that has both its states, OutgoingMessages returns one or
    two messages, the nomination message first, and leaves a driver on which
    a second call, at whatever time, changes nothing and returns the same
    messages: the default nomination is chosen once. *)
Theorem OutgoingMessages_chooses_its_default_once (sb sb' : StateBuilder)
  (clock clock' : string) (messages : list Message) :
  is_Some (nState sb) → is_Some (bState sb) →
  OutgoingMessages MakeSlotValue zeroSlotValue sb clock = Returns (messages, sb') →
  OutgoingMessages MakeSlotValue zeroSlotValue sb' clock' = Returns (messages, sb') ∧
  (∃ m rest, messages = MsgNomination m :: rest ∧ nm_X m ≠ [] ∧
             (length rest ≤ 1)%nat ∧ Forall (λ r, is_ballot_message r = true) rest).
Proof.
  intros [ns Hns] [bs Hbs] Hout.
  destruct (OutgoingMessages_with_ballot_state MakeSlotValue zeroSlotValue
              sb clock ns bs Hns Hbs) as (ns' & nomination & -> & Hhas & _ & Hcall).
  assert (nm_X_nonempty : X ns' ≠ []).
  { unfold HasNomination in Hhas. apply bool_decide_eq_true in Hhas.
    destruct (X ns'); [simpl in Hhas; lia | done]. }
  assert (sb' = set_nState sb ns') as ->.
  { destruct (HasMessage bs); [destruct Hcall as (m & _ & Hcall)|];
      rewrite Hcall in Hout; by injection Hout. }
  split.
  - destruct (OutgoingMessages_with_ballot_state MakeSlotValue zeroSlotValue
                (set_nState sb ns') clock' ns' bs eq_refl Hbs)
      as (ns2 & nomination2 & -> & _ & Hsame & Hcall2).
    rewrite (Hsame Hhas) in Hcall2. simpl in Hcall2.
    destruct (HasMessage bs).
    + destruct Hcall as (m & Hm & Hcall). destruct Hcall2 as (m2 & Hm2 & Hcall2).
      rewrite Hcall2. rewrite Hcall in Hout. injection Hout as <-.
      rewrite Hm in Hm2. by injection Hm2 as <-.
    + rewrite Hcall2. rewrite Hcall in Hout. by injection Hout as <-.
  - destruct (HasMessage bs) eqn:Hmsg.
    + destruct Hcall as (m & Hm & Hcall). rewrite Hcall in Hout.
      injection Hout as <-. eexists _, [m]. repeat split; try done.
      apply Forall_singleton. unfold bs_Message in Hm.
      destruct (b bs); [|done]. by injection Hm as <-.
    + rewrite Hcall in Hout. injection Hout as <-. eexists _, [].
      repeat split; try done. simpl. lia.
Qed.

(** *** Handle, and the ballot state that is never created *)




End DriverMore.

(** * Further properties of the operation codec *)

Section OperationsMore.
Context {OpType Struct : Type} `{EqDecision OpType}.
Variable OperationType : OpType → Struct → string.
Variable json_marshal : OpType → Struct → option string.
Variable json_envelope : string → string → string.
Variable json_parse_envelope : string → option (string * string).
Variable json_unmarshal : OpType → string → option (option Struct).

(** RegisterOperationType on one operation after the other, as the init
    functions of the packages call it, up to the first fatal error. *)
Fixpoint register_all (registry : gmap string OpType)
  (ops : list (OpType * Struct)) : outcome (gmap string OpType) :=
  match ops with
  | [] => Returns registry
  | (t, v) :: rest =>
      match RegisterOperationType OperationType registry t v with
      | Returns registry' => register_all registry' rest
      | Panic e => Panic e
      end
  end.

Definition type_names (ops : list (OpType * Struct)) : list string :=
  map (λ c, OperationType c.1 c.2) ops.

Lemma register_all_spec (ops : list (OpType * Struct)) :
  ∀ registry,
    match register_all registry ops with
    | Returns registry' =>
        NoDup (type_names ops) ∧
        (∀ name, name ∈ type_names ops → registry !! name = None) ∧
        (∀ name t, registry' !! name = Some t ↔
           registry !! name = Some t ∨
           ∃ v, (t, v) ∈ ops ∧ OperationType t v = name)
    | Panic e =>
        ¬ (NoDup (type_names ops) ∧
           ∀ name, name ∈ type_names ops → registry !! name = None) ∧
        ∃ name, name ∈ type_names ops ∧
                e = "operation type registered multiple times: " +:+ name
    end.
Proof.
  induction ops as [|[t v] rest IH]; intros registry; simpl.
  - split; [constructor|]. split; [by intros name ?%elem_of_nil|].
    intros name t. split; [by left|]. intros [?|(v & ?%elem_of_nil & _)]; done.
  - unfold RegisterOperationType.
    destruct (registry !! OperationType t v) as [t0|] eqn:Hfree.
    + split.
      * intros [_ Hnone]. specialize (Hnone (OperationType t v)).
        rewrite Hfree in Hnone. discriminate Hnone. by left.
      * exists (OperationType t v). split; [by left|done].
    + specialize (IH (<[OperationType t v := t]> registry)).
      destruct (register_all _ rest) as [registry'|e].
      * destruct IH as (Hnodup & Hnone & Hlookup). split; [|split].
        -- constructor; [|done]. intros Hin. specialize (Hnone _ Hin).
           by rewrite lookup_insert_eq in Hnone.
        -- intros name [->|Hin]%elem_of_cons; [done|].
           specialize (Hnone _ Hin). rewrite lookup_insert in Hnone.
           by case_decide.
        -- intros name t'. rewrite Hlookup, lookup_insert. split.
           ++ intros [Hold|(v' & Hin & Hname)].
              ** case_decide as Hname; [|by left].
                 injection Hold as <-. right. exists v. split; [by left|done].
              ** right. exists v'. split; [by right|done].
           ++ intros [Hold|(v' & [[= -> ->]|Hin]%elem_of_cons & Hname)].
              ** left. case_decide as Hname; [|done]. subst name. congruence.
              ** left. by rewrite decide_True.
              ** right. by exists v'.
      * destruct IH as (Hnot & name & Hin & ->). split.
        -- intros [Hnodup Hnone]. apply Hnot. apply NoDup_cons in Hnodup as [Hnotin ?].
           split; [done|]. intros name' Hin'. rewrite lookup_insert.
           case_decide as Hname; [by subst|]. apply Hnone. by right.
        -- exists name. split; [by right|done].
Qed.

(** *** RegisterOperationType, called for a list of operations *)


(** *** DecodeOperation and EncodeThenDecodeOperation *)

(** X15.  DecodeOperation returns an operation or an error, never both and never
    neither: with an error the operation is nil, and without one it is a
    pointer to a struct, of the type the registry holds for the name in the
    encoding.  EncodeThenDecodeOperation is fatal on a nil operation, and
    what it returns is never nil: it is a pointer to a struct of the
    type registered under the name of the operation it was given. *)
Theorem decoding_gives_an_operation_or_an_error
  (registry : gmap string OpType) :
  (∀ encoded,
     match DecodeOperation json_parse_envelope json_unmarshal registry encoded with
     | (op, None) =>
         ∃ name raw t v,
           json_parse_envelope encoded = Some (name, raw) ∧
           registry !! name = Some t ∧
           json_unmarshal t raw = Some (Some v) ∧ op = PointerTo t v
     | (op, Some _) => op = NilOperation
     end) ∧
  (∀ operation,
     match EncodeThenDecodeOperation OperationType json_marshal json_envelope
             json_parse_envelope json_unmarshal registry operation with
     | Returns op =>
         ∃ t v t' v', operation = PointerTo t v ∧ op = PointerTo t' v' ∧
                      is_Some (json_marshal t v) ∧
                      ∃ name, registry !! name = Some t'
     | Panic _ => True
     end) ∧
  (∀ operation, (operation = NilOperation ∨ ∃ t, operation = NilPointer t) →
     EncodeThenDecodeOperation OperationType json_marshal json_envelope
       json_parse_envelope json_unmarshal registry operation
     = Panic "you should not EncodeOperation(nil)").
Proof.
  assert (Hdecode : ∀ encoded,
     match DecodeOperation json_parse_envelope json_unmarshal registry encoded with
     | (op, None) =>
         ∃ name raw t v,
           json_parse_envelope encoded = Some (name, raw) ∧
           registry !! name = Some t ∧
           json_unmarshal t raw = Some (Some v) ∧ op = PointerTo t v
     | (op, Some _) => op = NilOperation
     end).
  { intros encoded. unfold DecodeOperation.
    destruct (json_parse_envelope encoded) as [[name raw]|]; [|done].
    destruct (registry !! name) as [t|] eqn:Ht; [|done].
    destruct (json_unmarshal t raw) as [[v|]|] eqn:Hv; [|done..].
    by exists name, raw, t, v. }
  split; [done|]. split.
  - intros operation. unfold EncodeThenDecodeOperation, EncodeOperation.
    destruct operation as [|t|t v]; [done..|].
    destruct (json_marshal t v) as [raw|] eqn:Hraw; [|done].
    specialize (Hdecode (json_envelope (OperationType t v) raw)).
    destruct (DecodeOperation _ _ _ _) as [op [err|]]; [done|].
    destruct Hdecode as (name & raw' & t' & v' & _ & Ht' & _ & ->).
    exists t, v, t', v'. repeat split; [by eexists|by exists name].
  - by intros operation [->|[t ->]].
Qed.

(** X16.  An operation of a registered type comes back from
    EncodeThenDecodeOperation as it was.  The registry is the result of
    registering some operations; the operation at hand has the type and the
    type string of one of them, type strings being unique to their types,
    and encoding/json writes it and reads it back. *)
Theorem registered_operation_survives_encode_then_decode
  (ops : list (OpType * Struct)) (registry : gmap string OpType)
  (t : OpType) (v w : Struct) (raw : string) :
  register_all ∅ ops = Returns registry →
  type_strings_unique OperationType →
  (t, v) ∈ ops → OperationType t w = OperationType t v →
  json_marshal t w = Some raw →
  json_parse_envelope (json_envelope (OperationType t w) raw)
    = Some (OperationType t w, raw) →
  json_unmarshal t raw = Some (Some w) →
  EncodeThenDecodeOperation OperationType json_marshal json_envelope
    json_parse_envelope json_unmarshal registry (PointerTo t w)
  = Returns (PointerTo t w).
Proof.
  intros Hreg Huniq Hin Hname Hraw Henv Hback.
  pose proof (register_all_spec ops ∅) as Hspec. rewrite Hreg in Hspec.
  destruct Hspec as (_ & _ & Hlookup).
  assert (registry !! OperationType t w = Some t) as Ht.
  { apply Hlookup. right. exists v. by rewrite Hname. }
  unfold EncodeThenDecodeOperation, EncodeOperation, DecodeOperation.
  by rewrite Hraw, Henv, Ht, Hback.
Qed.

End OperationsMore.

(** * When Handle on a ballot message returns *)

Section BallotTermination.
Context {SlotValue : Type} `{EqDecision SlotValue}.
Context `{!BallotMessageMethods (SlotValue := SlotValue)}.
Implicit Types (s : BallotState (SlotValue := SlotValue)) (v : SlotValue).

Lemma int_succ_stays_int (i : Z) : int_min ≤ int_succ i ≤ int_max.
Proof.
  unfold int_succ, int_wrap, int_min, int_max.
  pose proof (Z.mod_pos_bound (i + 1 + 2 ^ 63) (2 ^ 64)). lia.
Qed.

Lemma investigate_range_never_ends (fuel : nat) :
  ∀ s (i : Z) v,
    int_min ≤ i ≤ int_max → (investigate_range fuel s i int_max v).2 = false.
Proof.
  induction fuel as [|fuel IH]; intros s i v Hi; simpl;
    rewrite bool_decide_eq_true_2 by lia; [done|].
  apply IH, int_succ_stays_int.
Qed.

Lemma investigate_range_ends (k : nat) :
  ∀ s (i hi : Z) v,
    int_min ≤ i → hi < int_max → hi - i < Z.of_nat k →
    ∃ s', investigate_range k s i hi v = (s', true).
Proof.
  induction k as [|k IH]; intros s i hi v Hi Hhi Hk; simpl.
  - rewrite bool_decide_eq_false_2 by lia. by eexists.
  - case_bool_decide as Hle; [|by eexists].
    rewrite int_succ_in_range by lia. apply IH; lia.
Qed.

(** Once the phase is Externalize, Investigate touches neither the ballot
    nor the messages. *)
Definition externalized_with (s0 : BallotState (SlotValue := SlotValue)) s
  : Prop :=
  phase s = Externalize ∧ b s = b s0 ∧ z s = z s0 ∧ same_identity s0 s.

Lemma Investigate_externalized s0 s (k : Z) v :
  externalized_with s0 s → externalized_with s0 (Investigate s k v).
Proof.
  unfold externalized_with, same_identity, Investigate.
  intros (Hph & Hb & Hz & HM & Hkey & HD).
  assert (accept_as_prepared s k v = s) as ->.
  { destruct (accept_as_prepared_unfold s k v) as [?|[HP _]]; [done|].
    rewrite HP in Hph. discriminate. }
  assert (MaybeConfirmAsPrepared s k v = s) as ->.
  { destruct (MaybeConfirmAsPrepared_frame s k v) as (_ & _ & _ & _ & [?|HP]);
      [done|]. rewrite HP in Hph. discriminate. }
  assert (MaybeAcceptAsCommitted s k v = s) as ->.
  { by destruct (MaybeAcceptAsCommitted_frame s k v) as (_ & _ & _ & [?|[? _]]). }
  destruct (MaybeConfirmAsCommitted_frame s k v)
    as (-> & -> & _ & _ & (-> & -> & ->) & [->|[_ ->]]); done.
Qed.

Lemma investigate_range_externalized (fuel : nat) :
  ∀ s0 s (i hi : Z) v,
    externalized_with s0 s →
    externalized_with s0 (investigate_range fuel s i hi v).1.
Proof.
  induction fuel as [|fuel IH]; intros s0 s i hi v Hs; simpl;
    case_bool_decide; simpl; try done.
  by apply IH, Investigate_externalized.
Qed.

Lemma investigate_message_externalized (fuel : nat) s0 s
  (message : BallotMessage) :
  externalized_with s0 s →
  externalized_with s0 (investigate_message fuel s message).1.
Proof.
  intros Hs. destruct message as [m|m|m]; simpl.
  - by do 3 apply Investigate_externalized.
  - by apply Investigate_externalized.
  - by apply investigate_range_externalized.
Qed.

(** The numbers of a message are Go ints, and the loop over the range of an
    Externalize message stops short of the largest int. *)
Definition range_ends (message : BallotMessage (SlotValue := SlotValue)) : Prop :=
  match message with
  | MExternalize m => int_min ≤ em_Cn m ∧ em_Hn m < int_max
  | _ => True
  end.

Lemma investigate_message_ends s (message : BallotMessage) :
  range_ends message →
  ∃ fuel s', investigate_message fuel s message = (s', true).
Proof.
  destruct message as [m|m|m]; simpl; [by exists O; eexists..|].
  intros [Hlo Hhi]. exists (Z.to_nat (em_Hn m - em_Cn m + 1)).
  apply investigate_range_ends; lia.
Qed.

Lemma blocking_set_has_a_node (qs : QuorumSlice) (nodes : list string) :
  BlockedBy qs [] = false → BlockedBy qs nodes = true → ∃ u, u ∈ nodes.
Proof.
  destruct nodes as [|u nodes]; [congruence|]. intros _ _. exists u. by left.
Qed.

Lemma round_once_externalized s (message : BallotMessage) :
  phase s = Externalize → range_ends message →
  ∃ fuel s1, investigate_message fuel s message = (s1, true) ∧
             phase s1 = Externalize ∧ b s1 = b s ∧ z s1 = z s ∧
             M s1 = M s ∧ bs_D s1 = bs_D s.
Proof.
  intros Hph Hmsg.
  destruct (investigate_message_ends s message Hmsg) as (f1 & s1 & Hinv).
  assert (externalized_with s s) as Hs by by unfold externalized_with, same_identity.
  apply (investigate_message_externalized f1 s s message) in Hs.
  rewrite Hinv in Hs. destruct Hs as (? & ? & ? & ? & _ & ?).
  by exists f1, s1.
Qed.

Lemma handle_loop_ends_once_externalized (k : nat) :
  ∀ s (message : BallotMessage),
    phase s = Externalize →
    (∀ bl, b s = Some bl → int_min ≤ n bl ∧ int_max - n bl < Z.of_nat k) →
    (∀ u m, M s !! u = Some m → BallotNumber m ≤ int_max) →
    BlockedBy (bs_D s) [] = false →
    range_ends message →
    ∃ fuel s', handle_loop fuel s message = (s', true).
Proof.
  induction k as [|k IH]; intros s message Hph Hb HM HD Hmsg.
  all: destruct (round_once_externalized s message Hph Hmsg)
    as (f1 & s1 & Hinv & Hph1 & Hb1 & Hz1 & HM1 & HD1).
  all: destruct (MaybeNextBallot s1) as [s2 bumped] eqn:Hnext.
  all: destruct bumped.
  2, 4: exists (S f1), s2; cbn [handle_loop];
    rewrite (investigate_message_more_fuel f1 (S f1) s message s1 Hinv) by lia;
    by rewrite Hnext.
  all: pose proof Hnext as Hbump; unfold MaybeNextBallot in Hbump.
  all: destruct (z s1) as [zv|] eqn:Hzv; [|done].
  all: destruct (b s1) as [bl|] eqn:Hbl; [|done].
  all: destruct (BlockedBy (bs_D s1) _) eqn:Hblocked; [|done]; simpl in Hbump.
  all: rewrite HD1 in Hblocked.
  all: destruct (blocking_set_has_a_node _ _ HD Hblocked) as [u Hu].
  all: apply elem_of_peers_where in Hu as (m & Hm & Hhigher).
  all: apply bool_decide_eq_true in Hhigher.
  all: rewrite HM1 in Hm; pose proof (HM u m Hm) as Hmax.
  all: destruct (Hb bl) as [Hlo Hk]; [congruence|].
  - lia.
  - injection Hbump as <-.
    destruct (IH (set_b s1 (Some {| n := int_succ (n bl); x := x bl |})) message)
      as (f2 & s' & Hloop); simpl; try done.
    + intros ? [= <-]. simpl. rewrite int_succ_in_range by lia. lia.
    + by rewrite HM1.
    + by rewrite HD1.
    + exists (S (f1 `max` f2)), s'. cbn [handle_loop].
      rewrite (investigate_message_more_fuel f1 (S (f1 `max` f2)) s message s1 Hinv)
        by lia.
      rewrite Hnext.
      apply (handle_loop_more_fuel f2); [done | lia].
Qed.

(** *** The loop over the range of an Externalize message *)

(** X17.  An Externalize message whose Hn is the largest int hangs Handle: the
    loop variable wraps round instead of passing Hn, so that however many
    rounds are allowed, the call has not returned.  With an Hn below the
    largest int, the loop over the range ends. *)
Theorem Externalize_range_up_to_max_int_hangs_Handle s (node : string)
  (m : ExternalizeMessage) :
  is_stale s node (MExternalize m) = false →
  int_min ≤ em_Cn m ≤ int_max →
  (em_Hn m = int_max →
   ∀ fuel, (bs_Handle fuel s node (MExternalize m)).2 = false) ∧
  (em_Hn m < int_max →
   ∀ s0, ∃ fuel s', investigate_message fuel s0 (MExternalize m) = (s', true)).
Proof.
  intros Hnew Hcn. split.
  - intros Hhn fuel. unfold bs_Handle. rewrite Hnew.
    destruct fuel as [|fuel]; [done|]. cbn [handle_loop investigate_message].
    rewrite Hhn.
    pose proof (investigate_range_never_ends (S fuel)
                  (set_M s (<[node:=MExternalize m]> (M s)))
                  (em_Cn m) (em_X m) Hcn) as Hnever.
    destruct (investigate_range _ _ _ _ _) as [s1 finished].
    simpl in Hnever. by rewrite Hnever.
  - intros Hhn s0. apply investigate_message_ends. simpl. lia.
Qed.

(** *** Handle after the value is externalized *)

(** X18.  In the Externalize phase Handle returns on every message whose range
    loop ends: the ballot number is only ever bumped towards the largest
    ballot number among the messages held.  The numbers are Go ints, and the
    slice is one that the empty set does not block. *)
Theorem Handle_returns_once_externalized s (node : string)
  (message : BallotMessage) :
  phase s = Externalize →
  (∀ bl, b s = Some bl → int_min ≤ n bl ≤ int_max) →
  (∀ u m, <[node := message]> (M s) !! u = Some m → BallotNumber m ≤ int_max) →
  BlockedBy (bs_D s) [] = false →
  range_ends message →
  ∃ fuel s', bs_Handle fuel s node message = (s', true) ∧
             phase s' = Externalize ∧ (x <$> b s') = (x <$> b s).
Proof.
  intros Hph Hb HM HD Hmsg. unfold bs_Handle.
  destruct (is_stale s node message); [by exists O, s|].
  destruct (handle_loop_ends_once_externalized
              (S (Z.to_nat (int_max - int_min)))
              (set_M s (<[node := message]> (M s))) message)
    as (fuel & s' & Hloop); simpl; try done.
  { intros bl Hbl. destruct (Hb bl Hbl). unfold int_min, int_max in *. lia. }
  exists fuel, s'. split; [done|].
  pose proof (handle_loop_kept (externalized_from s) (externalized_from_kept s)
                fuel (set_M s (<[node := message]> (M s))) message) as Hkept.
  rewrite Hloop in Hkept. simpl in Hkept.
  destruct Hkept as (? & ? & _); [|done].
  unfold externalized_from. simpl. repeat split; try done; lia.
Qed.

End BallotTermination.

(** * What an operation that takes effect records *)

Section BallotEffects.
Context {SlotValue : Type} `{EqDecision SlotValue}.
Context `{!BallotMessageMethods (SlotValue := SlotValue)}.
Implicit Types (s : BallotState (SlotValue := SlotValue)) (v : SlotValue) (k : Z).

(** X19.  Whenever MaybeConfirmAsPrepared, MaybeAcceptAsCommitted or
    MaybeConfirmAsCommitted changes the state on a call for the ballot
    (k, v), the state it leaves works on the value v: b is a ballot with
    value v.  MaybeConfirmAsPrepared acts in the Prepare phase on a k above
    hn only, and makes k the new hn.  MaybeAcceptAsCommitted leaves the
    phase Confirm and MaybeConfirmAsCommitted leaves it Externalize, both
    with k inside the range from cn to hn; MaybeConfirmAsCommitted does not
    touch b. *)
Theorem an_operation_that_acts_records_its_ballot s k v :
  (MaybeConfirmAsPrepared s k v ≠ s →
     phase s = Prepare ∧ hn s < k ∧
     has_value (b (MaybeConfirmAsPrepared s k v)) v = true ∧
     hn (MaybeConfirmAsPrepared s k v) = k) ∧
  (MaybeAcceptAsCommitted s k v ≠ s →
     phase s ≠ Externalize ∧ phase (MaybeAcceptAsCommitted s k v) = Confirm ∧
     has_value (b (MaybeAcceptAsCommitted s k v)) v = true ∧
     in_range (MaybeAcceptAsCommitted s k v) k = true) ∧
  (MaybeConfirmAsCommitted s k v ≠ s →
     phase s ≠ Prepare ∧ phase (MaybeConfirmAsCommitted s k v) = Externalize ∧
     b (MaybeConfirmAsCommitted s k v) = b s ∧ has_value (b s) v = true ∧
     in_range (MaybeConfirmAsCommitted s k v) k = true).
Proof.
  assert (Hsame : ∀ j, has_value (Some {| n := j; x := v |}) v = true).
  { intros j. simpl. unfold Equal. by apply bool_decide_eq_true. }
  split; [|split].
  - unfold MaybeConfirmAsPrepared.
    case_bool_decide as Hph; simpl; [|done].
    case_bool_decide as Hk; [done|].
    destruct (negb (MeetsQuorum s _)); [done|]. intros _.
    split; [done|]. split; [lia|].
    destruct (b s) as [bl|] eqn:Hb; simpl.
    + destruct (Equal (x bl) v) eqn:Hv; simpl; rewrite ?Hb; simpl;
        rewrite ?Hb; simpl; (split; [|done]); [done|apply (Hsame k)].
    + rewrite Hb. simpl. split; [|done]. apply (Hsame k).
  - unfold MaybeAcceptAsCommitted.
    case_bool_decide as Hph; [done|].
    destruct (bool_decide (phase s = Confirm) && in_range s k); [done|].
    destruct (negb (MeetsQuorum s _) && negb (BlockedBy (bs_D s) _)); [done|].
    intros _. split; [done|]. simpl.
    destruct (has_value (b s) v) eqn:Hv; simpl.
    + unfold in_range.
      repeat case_bool_decide; simpl in *; repeat split; try done;
        rewrite ?andb_true_iff, ?bool_decide_eq_true; simpl; lia.
    + split; [done|]. split; [apply (Hsame k)|].
      unfold in_range. simpl. rewrite andb_true_iff, !bool_decide_eq_true. lia.
  - unfold MaybeConfirmAsCommitted.
    case_bool_decide as Hph; [done|].
    destruct (has_value (b s) v) eqn:Hv; simpl; [|done].
    destruct (negb (bool_decide (phase s = Confirm)) && in_range s k); [done|].
    destruct (negb (MeetsQuorum s _)); [done|].
    case_bool_decide as Hconfirm.
    + intros _. unfold in_range. simpl. repeat split; try done.
      rewrite andb_true_iff, !bool_decide_eq_true. lia.
    + intros _. assert (phase s = Externalize) as Hext by by destruct (phase s).
      unfold in_range.
      repeat case_bool_decide; simpl in *; repeat split; try done;
        rewrite ?andb_true_iff, ?bool_decide_eq_true; simpl; lia.
Qed.

End BallotEffects.

(** * StringifyOperations *)

(** [fmt.Sprintf] with the verb d, on an int. *)
Definition decimal (i : Z) : string := NilZero.string_of_int (Z.to_int i).

(** The loop of StringifyOperations, from index [i] on: [total] is
    [len(ops)], [ops] holds what String() returns for the operations still
    to visit, [parts] the parts gathered so far. *)
Fixpoint stringify_parts (total i : Z) (ops parts : list string) : list string :=
  match ops with
  | [] => parts
  | op :: rest =>
      if bool_decide (2 ≤ i)
      then parts ++ ["and " +:+ decimal (total - 2) +:+ " more"]
      else stringify_parts total (i + 1) rest (parts ++ [op])
  end.

(** [ops] holds what String() returns for each of the operations. *)
Definition StringifyOperations (ops : list string) : string :=
  "(" +:+ String.concat "; " (stringify_parts (Z.of_nat (length ops)) 0 ops [])
      +:+ ")".

(** X20.  StringifyOperations names the first two operations only.  Up to two
    operations are all listed, separated by semicolons; of more than two, the
    first two are followed by a count of the others, which is the length of
    the list less two.  An empty list gives a pair of parentheses. *)
Theorem StringifyOperations_names_two_and_counts_the_rest (ops : list string) :
  StringifyOperations ops =
    "(" +:+ String.concat "; "
              (take 2 ops ++
               if bool_decide (2 < length ops)%nat
               then ["and " +:+ decimal (Z.of_nat (length (drop 2 ops))) +:+ " more"]
               else [])
        +:+ ")" ∧
  StringifyOperations [] = "()".
Proof.
  split; [|reflexivity]. unfold StringifyOperations. do 3 f_equal.
  destruct ops as [|a [|c [|d rest]]]; try reflexivity.
  rewrite bool_decide_eq_true_2 by (simpl; lia).
  cbn [stringify_parts length take drop app].
  rewrite bool_decide_eq_false_2 by lia. cbn [stringify_parts app].
  rewrite bool_decide_eq_false_2 by lia. cbn [stringify_parts app].
  rewrite bool_decide_eq_true_2 by lia.
  by replace (Z.of_nat (S (S (S (length rest)))) - 2)
    with (Z.of_nat (S (length rest))) by lia.
Qed.

(** * The further properties on concrete runs *)

Module More.
Import Run.

(** *** A ballot state that has externalized

    Peer A, who alone makes up the slice, sends an Externalize message for
    the value a at the number 1; handling it takes the state through the
    three phases. *)

Definition externalize_by_A : BallotMessage :=
  MExternalize {| em_T := Externalize; em_I := 1; em_X := "a"; em_Cn := 1;
                  em_Hn := 1; em_D := only_A |}.

Definition externalized_1a : BallotState :=
  bs_run (NewBallotState "me" only_A) [CallBallotHandle 1 "A" externalize_by_A].

Definition confirm_b_by_A : BallotMessage :=
  MConfirm {| cm_T := Confirm; cm_I := 1; cm_X := "b"; cm_Pn := 4; cm_Cn := 2;
              cm_Hn := 4; cm_D := only_A |}.

(** An Externalize message whose range runs up to the largest int. *)
Definition endless_by_A : ExternalizeMessage :=
  {| em_T := Externalize; em_I := 1; em_X := "a"; em_Cn := 1;
     em_Hn := int_max; em_D := only_A |}.

(** *** A driver that has been given a ballot state *)

Definition driver_with_ballot_state : StateBuilder :=
  set_bState (NewStateBuilder 0 "me" ["A"] 1) working_on_1a.

Definition first_answer : list Message * StateBuilder :=
  match OutgoingMessages (λ text, text) "" driver_with_ballot_state "noon" with
  | Returns answer => answer
  | Panic _ => ([], driver_with_ballot_state)
  end.

(** The operation that operation_test.go registers. *)
Definition zero_operation : TestingOperation := {| Number := 0; Signer := "" |}.

(** After the state has externalized, a later Confirm message for another
    value leaves p and p' alone. *)
Lemma frozen_in_externalized_1a :
  let s' := bs_run externalized_1a [CallBallotHandle 2 "A" confirm_b_by_A] in
  phase s' ≠ Prepare ∧ p s' = p externalized_1a ∧
  pPrime s' = pPrime externalized_1a ∧
  accept_as_prepared s' 7 "b" = s' ∧ MaybeConfirmAsPrepared s' 7 "b" = s'.
Proof.
  apply (prepared_ballots_are_frozen_after_prepare externalized_1a
           [CallBallotHandle 2 "A" confirm_b_by_A] 7 "b").
  vm_compute. discriminate.
Defined.

(** The value a stays externalized when a Confirm message for b arrives. *)
Lemma externalized_1a_is_final :
  let s' := bs_run externalized_1a [CallBallotHandle 2 "A" confirm_b_by_A] in
  phase s' = Externalize ∧ (x <$> b s') = (x <$> b externalized_1a) ∧
  z s' = z externalized_1a ∧
  cn s' ≤ cn externalized_1a ∧ hn externalized_1a ≤ hn s'.
Proof.
  apply (externalized_value_is_final externalized_1a
           [CallBallotHandle 2 "A" confirm_b_by_A]).
  vm_compute. reflexivity.
Defined.

(** Handle on the first message of A returns within one round, in a state
    with nothing to bump. *)
Lemma working_on_1a_is_settled :
  (∀ fuel', (1 ≤ fuel')%nat →
     bs_Handle fuel' (NewBallotState "me" only_A) "A" (prepared_by_A 1 "a")
     = (working_on_1a, true)) ∧
  (is_stale (NewBallotState "me" only_A) "A" (prepared_by_A 1 "a") = false →
   MaybeNextBallot working_on_1a = (working_on_1a, false)).
Proof.
  apply (bs_Handle_returns_a_settled_state 1 (NewBallotState "me" only_A) "A"
           (prepared_by_A 1 "a") working_on_1a).
  vm_compute. reflexivity.
Defined.

(** The driver with a ballot state answers the same at noon and at night. *)
Lemma driver_answers_twice_the_same :
  OutgoingMessages (λ text, text) "" first_answer.2 "night"
    = Returns (first_answer.1, first_answer.2) ∧
  (∃ m rest, first_answer.1 = MsgNomination m :: rest ∧ nm_X m ≠ [] ∧
             (length rest ≤ 1)%nat ∧
             Forall (λ r, is_ballot_message r = true) rest).
Proof.
  apply (OutgoingMessages_chooses_its_default_once (λ text, text) ""
           driver_with_ballot_state first_answer.2 "noon" "night"
           first_answer.1).
  - eexists. vm_compute. reflexivity.
  - eexists. vm_compute. reflexivity.
  - vm_compute. reflexivity.
Defined.

(** TestingOperation is registered with its zero value, and the operation
    with the number 5 comes back from EncodeThenDecodeOperation. *)
Lemma five_survives_encode_then_decode :
  EncodeThenDecodeOperation testing_OperationType line_marshal line_envelope
    line_parse_envelope line_unmarshal testing_registry (PointerTo Testing five)
  = Returns (PointerTo Testing five).
Proof.
  apply (registered_operation_survives_encode_then_decode testing_OperationType
           line_marshal line_envelope line_parse_envelope line_unmarshal
           [(Testing, zero_operation)] testing_registry Testing zero_operation
           five "5,bob").
  - vm_compute. reflexivity.
  - exact testing_strings_unique.
  - apply list_elem_of_singleton. reflexivity.
  - reflexivity.
  - vm_compute. reflexivity.
  - vm_compute. reflexivity.
  - vm_compute. reflexivity.
Defined.

(** A fresh ballot state never gets through the message of A whose range
    ends at the largest int. *)
Lemma endless_by_A_hangs_Handle :
  (em_Hn endless_by_A = int_max →
   ∀ fuel, (bs_Handle fuel (NewBallotState "me" only_A) "A"
              (MExternalize endless_by_A)).2 = false) ∧
  (em_Hn endless_by_A < int_max →
   ∀ s0, ∃ fuel s',
     investigate_message fuel s0 (MExternalize endless_by_A) = (s', true)).
Proof.
  apply (Externalize_range_up_to_max_int_hangs_Handle
           (NewBallotState "me" only_A) "A" endless_by_A).
  - vm_compute. reflexivity.
  - simpl. unfold int_min, int_max. lia.
Defined.

(** Once a is externalized, Handle returns on the Confirm message for b. *)
Lemma Handle_returns_in_externalized_1a :
  ∃ fuel s', bs_Handle fuel externalized_1a "A" confirm_b_by_A = (s', true) ∧
             phase s' = Externalize ∧ (x <$> b s') = (x <$> b externalized_1a).
Proof.
  apply (Handle_returns_once_externalized externalized_1a "A" confirm_b_by_A).
  - vm_compute. reflexivity.
  - intros bl Hbl. vm_compute in Hbl. injection Hbl as <-.
    simpl. unfold int_min, int_max. lia.
  - assert (M externalized_1a = {["A" := externalize_by_A]}) as ->
      by (vm_compute; reflexivity).
    intros u m. rewrite insert_singleton.
    intros [_ <-]%lookup_singleton_Some. simpl. unfold int_max. lia.
  - vm_compute. reflexivity.
  - exact I.
Defined.

End More.
